(** * AutoInsureFill_AI: template scanning, extraction, merge and fill

    A shallow embedding of [AutoInsureFill_AI.py].  Python text is a
    list of code points, a [dict] is an association list in insertion
    order with distinct keys, a decoded JSON value is a term of [json].
    The remote endpoint, the PDF pages and the document parts enter as
    data: what the page, the paragraph or the cell holds, and what the
    endpoint answers at each attempt. *)

From stdpp Require Import base list gmap sorting strings.
From Stdlib Require Import ZArith NArith Lia.

Local Open Scope N_scope.
Local Set Warnings "-register-all,-clear-no-such-hyp".

(** ** Text *)

(** A Python [str] is a sequence of code points. *)
Abbreviation pystr := (list N).

(** An ASCII literal as Python text. *)
Fixpoint py (s : string) : pystr :=
  match s with
  | EmptyString => []
  | String a s' => Ascii.N_of_ascii a :: py s'
  end.

Definition NL : N := 10.      (* line feed *)
Definition QUOTE : N := 34.   (* double quote *)
Definition SLASH : N := 47.
Definition BSLASH : N := 92.
Definition COMMA : N := 44.
Definition LBRACKET : N := 91.
Definition RBRACKET : N := 93.
Definition LBRACE : N := 123.
Definition RBRACE : N := 125.

(** A literal between double quotes. *)
Definition q (s : string) : pystr := QUOTE :: py s ++ [QUOTE].

(** ** Decoded JSON values and dictionaries *)

(** What [json.loads] builds: [None], [bool], [int], [float], [str],
    [list] and [dict].  A float keeps the literal it was read from. *)
Inductive json : Type :=
| JNull
| JBool (b : bool)
| JInt (z : Z)
| JFloat (lit : pystr)
| JStr (s : pystr)
| JArr (l : list json)
| JObj (kvs : list (pystr * json)).

Section Dict.
Context {V : Type}.

(** [d[k]], or [None] when [k not in d]. *)
Fixpoint dict_get (k : pystr) (d : list (pystr * V)) : option V :=
  match d with
  | [] => None
  | (k', v) :: r => if decide (k' = k) then Some v else dict_get k r
  end.

(** [d[k] = v]: an existing key keeps its place, a new one goes last. *)
Fixpoint dict_set (k : pystr) (v : V) (d : list (pystr * V)) : list (pystr * V) :=
  match d with
  | [] => [(k, v)]
  | (k', v') :: r =>
      if decide (k' = k) then (k', v) :: r else (k', v') :: dict_set k v r
  end.

Definition keys (d : list (pystr * V)) : list pystr := d.*1.

(** The keys of a dictionary are distinct. *)
Definition dict_wf (d : list (pystr * V)) : Prop := NoDup (keys d).
End Dict.


(** ** The merge of the per-report results ([main], the loop over
    [all_key_value_pairs]) *)

(** [v] equals the empty string: among decoded values only the empty
    [str] does. *)
Definition is_empty_str (v : json) : bool :=
  match v with
  | JStr [] => true
  | _ => false
  end.

(** One iteration of the inner loop:
    [if key not in combined_kv or (combined_kv[key] == '' and value != ''):
         combined_kv[key] = value]. *)
Definition merge_item (combined_kv : list (pystr * json)) (item : pystr * json)
  : list (pystr * json) :=
  let '(key, value) := item in
  match dict_get key combined_kv with
  | None => dict_set key value combined_kv
  | Some cur =>
      if is_empty_str cur && negb (is_empty_str value)
      then dict_set key value combined_kv
      else combined_kv
  end.

(** The two nested loops, from [combined_kv = {}]. *)
Definition combine_kv (all_key_value_pairs : list (list (pystr * json)))
  : list (pystr * json) :=
  foldl (fun combined_kv kv => foldl merge_item combined_kv kv) [] all_key_value_pairs.

(** The rule as the specification words it: the first non-empty value
    seen for a key wins; a key that only ever had empty values keeps the
    empty string; a key never seen is absent. *)
Definition first_nonempty_wins (k : pystr) (items : list (pystr * json)) : option json :=
  match List.find (fun kv => bool_decide (kv.1 = k) && negb (is_empty_str kv.2)) items with
  | Some kv => Some kv.2
  | None => if decide (k ∈ items.*1) then Some (JStr []) else None
  end.

(** ** [extract_text_from_pdf] *)

(** A page is what [page.extract_text()] gives for it: a text, or
    [None].  [if page_text:] lets only a non-empty text through. *)
Definition add_page (text : pystr) (page_text : option pystr) : pystr :=
  match page_text with
  | Some (c :: r) => text ++ (c :: r) ++ [NL]
  | _ => text
  end.

Definition extract_text_from_pdf (pages : list (option pystr)) : pystr :=
  foldl add_page [] pages.

(** The texts of the pages that yield one, in page order. *)
Definition page_texts (pages : list (option pystr)) : list pystr :=
  omap (fun page_text => match page_text with
                         | Some (c :: r) => Some (c :: r)
                         | _ => None
                         end) pages.

(** [sep.join(parts)]. *)
Fixpoint py_join (sep : pystr) (parts : list pystr) : pystr :=
  match parts with
  | [] => []
  | x :: r => match r with
              | [] => x
              | _ :: _ => x ++ sep ++ py_join sep r
              end
  end.

(** ** Documents *)

(** A document as the program reads and writes it: the text of each
    body paragraph, and for each table its rows of cell texts. *)
Record document : Type := Document {
  paragraphs : list pystr;
  tables : list (list (list pystr))
}.

(** Every text the two loops visit: paragraphs, then cells. *)
Definition doc_texts (doc : document) : list pystr :=
  paragraphs doc ++ mjoin (mjoin (tables doc)).

(** [p] occurs in [t] as a contiguous run. *)
Definition occurs_in (p t : pystr) : Prop := ∃ pre post, t = pre ++ p ++ post.

(** [f"[{key}]"]. *)
Definition placeholder (key : pystr) : pystr := LBRACKET :: key ++ [RBRACKET].

(** ** [extract_template_fields] *)

(** The class [[A-Z0-9_]]. *)
Definition is_field_char (c : N) : bool :=
  ((65 <=? c) && (c <=? 90)) || ((48 <=? c) && (c <=? 57)) || (c =? 95).

(** The longest run of class characters at the head, and what follows:
    the greedy [+]. *)
Fixpoint span_field (s : pystr) : pystr * pystr :=
  match s with
  | [] => ([], [])
  | c :: r =>
      if is_field_char c
      then let '(name, rest) := span_field r in (c :: name, rest)
      else ([], s)
  end.

(** The pattern [\[([A-Z0-9_]+)\]] tried at the head of [s]; the group
    when it matches.  A closing bracket is no class character, so giving
    back part of the greedy run never helps. *)
Definition match_field (s : pystr) : option pystr :=
  match s with
  | [] => None
  | c :: r =>
      if c =? LBRACKET
      then match span_field r with
           | (d :: name, e :: _) => if e =? RBRACKET then Some (d :: name) else None
           | _ => None
           end
      else None
  end.

(** [re.findall]: leftmost matches, left to right, none overlapping.
    [skip] counts the characters of the last match still to pass. *)
Fixpoint findall_from (skip : nat) (s : pystr) : list pystr :=
  match s with
  | [] => []
  | c :: r =>
      match skip with
      | S n => findall_from n r
      | O => match match_field s with
             | Some name => name :: findall_from (S (length name)) r
             | None => findall_from 0 r
             end
      end
  end.

Definition findall_fields (text : pystr) : list pystr := findall_from 0 text.

(** The order of [str]: by code point, a proper prefix first. *)
Fixpoint str_leb (a b : pystr) : bool :=
  match a, b with
  | [], _ => true
  | _ :: _, [] => false
  | x :: a', y :: b' => if x <? y then true else if x =? y then str_leb a' b' else false
  end.

Definition str_le (a b : pystr) : Prop := str_leb a b = true.

#[global] Instance str_le_dec a b : Decision (str_le a b).
Proof. unfold str_le. apply _. Defined.

(** [sorted(list(fields))]: the result of [sorted] on distinct strings
    is the one ordered arrangement of them, whatever order the set
    yields them in. *)
Definition sorted (l : list pystr) : list pystr := merge_sort str_le l.

Definition scan_texts (fields : gset pystr) (texts : list pystr) : gset pystr :=
  foldl (fun fields text => fields ∪ list_to_set (findall_fields text)) fields texts.

Definition extract_template_fields (doc : document) : list pystr :=
  let fields : gset pystr := ∅ in
  let fields := scan_texts fields (paragraphs doc) in
  let fields :=
    foldl (fun fields table => foldl (fun fields row => scan_texts fields row) fields table)
          fields (tables doc) in
  sorted (elements fields).

(** A field name: one or more class characters. *)
Definition is_field_name (k : pystr) : Prop := k ≠ [] ∧ Forall (fun c => is_field_char c = true) k.

(** ** [fill_template] *)

Fixpoint is_prefix (p s : pystr) : bool :=
  match p, s with
  | [], _ => true
  | _ :: _, [] => false
  | x :: p', y :: s' => (x =? y) && is_prefix p' s'
  end.

(** [p in s]. *)
Fixpoint contains (p s : pystr) : bool :=
  is_prefix p s || match s with
                   | [] => false
                   | _ :: r => contains p r
                   end.

(** [s.replace(old, new)] for a non-empty [old]: every occurrence, left
    to right, none overlapping.  [skip] counts the characters of the
    last occurrence still to pass. *)
Fixpoint replace_from (old new : pystr) (skip : nat) (s : pystr) : pystr :=
  match s with
  | [] => []
  | c :: r =>
      match skip with
      | S n => replace_from old new n r
      | O => if is_prefix old s
             then new ++ replace_from old new (length old - 1) r
             else c :: replace_from old new 0 r
      end
  end.

(** With an empty [old], [new] goes before every character and at the
    end. *)
Definition str_replace (old new s : pystr) : pystr :=
  match old with
  | [] => new ++ (s ≫= fun c => c :: new)
  | _ :: _ => replace_from old new 0 s
  end.

Section Fill.
(** The values of the map and their [str(value)]. *)
Context {V : Type} (py_str : V → pystr).

(** The body of the loop over [key_value_pairs.items()]. *)
Definition fill_step (text : pystr) (item : pystr * V) : pystr :=
  let '(key, value) := item in
  if contains (placeholder key) text
  then str_replace (placeholder key) (py_str value) text
  else text.

Definition fill_text (key_value_pairs : list (pystr * V)) (text : pystr) : pystr :=
  foldl fill_step text key_value_pairs.

Definition fill_template (doc : document) (key_value_pairs : list (pystr * V)) : document :=
  {| paragraphs := fill_text key_value_pairs <$> paragraphs doc;
     tables := (fun table : list (list pystr) =>
                  (fun row : list pystr => fill_text key_value_pairs <$> row) <$> table)
               <$> tables doc |}.

(** A text cut into placeholders and single characters. *)
Inductive piece : Type :=
| Lit (c : N)
| Hole (k : pystr).

Definition render_piece (p : piece) : pystr :=
  match p with
  | Lit c => [c]
  | Hole k => placeholder k
  end.

Definition render (ps : list piece) : pystr := ps ≫= render_piece.

(** A placeholder whose name is a key becomes the text of its value,
    anything else stays. *)
Definition subst_piece (kv : list (pystr * V)) (p : piece) : list piece :=
  match p with
  | Lit c => [Lit c]
  | Hole k => match dict_get k kv with
              | Some v => Lit <$> py_str v
              | None => [Hole k]
              end
  end.

Definition subst (kv : list (pystr * V)) (ps : list piece) : list piece :=
  ps ≫= subst_piece kv.

(** One key only: what a single [replace] does to the pieces. *)
Definition subst_one (key : pystr) (new : pystr) (p : piece) : list piece :=
  match p with
  | Lit c => [Lit c]
  | Hole k => if decide (k = key) then Lit <$> new else [Hole k]
  end.

Definition bracket_free (k : pystr) : Prop := (LBRACKET ∉ k) ∧ (RBRACKET ∉ k).

(** Every opening bracket of the text opens a placeholder, and the
    names hold no bracket. *)
Definition piece_ok (p : piece) : Prop :=
  match p with
  | Lit c => c ≠ LBRACKET
  | Hole k => bracket_free k
  end.

Definition keys_ok (kv : list (pystr * V)) : Prop := Forall bracket_free (keys kv).
Definition values_ok (kv : list (pystr * V)) : Prop :=
  Forall (fun item => LBRACKET ∉ (py_str (item.2))) kv.
End Fill.

(** The text of cell [c] of row [r] of table [t]. *)
Definition cell_at (doc : document) (t r c : nat) : option pystr :=
  table ← tables doc !! t; row ← table !! r; row !! c.

(** The number of paragraphs, and for each table the number of cells of
    each of its rows. *)
Definition shape (doc : document) : nat * list (list nat) :=
  (length (paragraphs doc),
   (fun table : list (list pystr) => (length : list pystr → nat) <$> table) <$> tables doc).

(** ** The reply of the model: the JSON block and its repair *)

(** The longest prefix of [s] that ends with [c]. *)
Fixpoint upto_last (c : N) (s : pystr) : option pystr :=
  match s with
  | [] => None
  | x :: r => match upto_last c r with
              | Some t => Some (x :: t)
              | None => if x =? c then Some [x] else None
              end
  end.

(** [re.search(r'\{[\s\S]*\}', content)]: at the leftmost opening brace
    that has a closing brace after it, the greedy star runs to the last
    closing brace. *)
Fixpoint search_json_block (content : pystr) : option pystr :=
  match content with
  | [] => None
  | c :: r =>
      if c =? LBRACE
      then match upto_last RBRACE r with
           | Some t => Some (c :: t)
           | None => search_json_block r
           end
      else search_json_block r
  end.

(** [re.sub(r'//.*', '', json_str)]: two slashes and all that follows
    them on the line go; [.] stops at a line feed.  [in_comment] tells
    that the scan is inside such a match. *)
Fixpoint strip_comments (in_comment : bool) (s : pystr) : pystr :=
  match s with
  | [] => []
  | c :: r =>
      if in_comment
      then if c =? NL then c :: strip_comments false r else strip_comments true r
      else match r with
           | d :: _ =>
               if (c =? SLASH) && (d =? SLASH)
               then strip_comments true r
               else c :: strip_comments false r
           | [] => [c]
           end
  end.

(** The class [\s] on [str]: the characters Python counts as
    whitespace. *)
Definition is_space (c : N) : bool :=
  ((9 <=? c) && (c <=? 13)) || ((28 <=? c) && (c <=? 32))
  || (c =? 133) || (c =? 160) || (c =? 5760)
  || ((8192 <=? c) && (c <=? 8202))
  || (c =? 8232) || (c =? 8233) || (c =? 8239) || (c =? 8287) || (c =? 12288).

(** Whitespace, then a closing brace or bracket: the rest of the
    pattern [,\s*([\}\]])] after its comma. *)
Fixpoint closer_after_spaces (s : pystr) : bool :=
  match s with
  | [] => false
  | c :: r =>
      if is_space c then closer_after_spaces r
      else (c =? RBRACE) || (c =? RBRACKET)
  end.

(** [re.sub(r',\s*([\}\]])', r'\1', json_str)]: the comma and the
    whitespace go, the closing character stays.  [dropping] tells that
    the scan is inside such a match, before its closing character. *)
Fixpoint strip_trailing_commas (dropping : bool) (s : pystr) : pystr :=
  match s with
  | [] => []
  | c :: r =>
      if dropping
      then if is_space c
           then strip_trailing_commas true r
           else c :: strip_trailing_commas false r
      else if (c =? COMMA) && closer_after_spaces r
           then strip_trailing_commas true r
           else c :: strip_trailing_commas false r
  end.

(** Some comma of [s] has only whitespace between it and a closing
    brace or bracket. *)
Fixpoint has_trailing_comma (s : pystr) : bool :=
  match s with
  | [] => false
  | c :: r => ((c =? COMMA) && closer_after_spaces r) || has_trailing_comma r
  end.

(** The two substitutions, in the order of the code. *)
Definition sanitize (json_str : pystr) : pystr :=
  strip_trailing_commas false (strip_comments false json_str).

(** ** [json.loads] *)

(** The decoder of the standard library, strict mode: the grammar of
    JSON with the three extra constants NaN, Infinity and -Infinity. *)

Definition is_json_ws (c : N) : bool :=
  (c =? 32) || (c =? 9) || (c =? 10) || (c =? 13).

Fixpoint skip_ws (s : pystr) : pystr :=
  match s with
  | [] => []
  | c :: r => if is_json_ws c then skip_ws r else s
  end.

Definition is_digit (c : N) : bool := (48 <=? c) && (c <=? 57).

Definition hex_digit (c : N) : option N :=
  if (48 <=? c) && (c <=? 57) then Some (c - 48)
  else if (97 <=? c) && (c <=? 102) then Some (c - 87)
  else if (65 <=? c) && (c <=? 70) then Some (c - 55)
  else None.

Definition hex4 (a b c d : N) : option N :=
  a ← hex_digit a; b ← hex_digit b; c ← hex_digit c; d ← hex_digit d;
  Some (((a * 16 + b) * 16 + c) * 16 + d).

(** The character after a backslash. *)
Definition unescape (e : N) : option N :=
  if e =? QUOTE then Some QUOTE
  else if e =? BSLASH then Some BSLASH
  else if e =? SLASH then Some SLASH
  else if e =? 98 then Some 8
  else if e =? 102 then Some 12
  else if e =? 110 then Some 10
  else if e =? 114 then Some 13
  else if e =? 116 then Some 9
  else None.

Definition is_high_surrogate (u : N) : bool := (55296 <=? u) && (u <=? 56319).
Definition is_low_surrogate (u : N) : bool := (56320 <=? u) && (u <=? 57343).

(** A string, from after its opening quote: its characters and what
    follows the closing quote.  A control character, an unknown escape
    or the end of the text before the closing quote is an error. *)
Fixpoint scan_string (s : pystr) : option (pystr * pystr) :=
  match s with
  | [] => None
  | c :: r =>
      if c =? QUOTE then Some ([], r)
      else if c =? BSLASH then
        match r with
        | [] => None
        | e :: r1 =>
            if e =? 117 then
              match r1 with
              | h1 :: h2 :: h3 :: h4 :: r2 =>
                  match hex4 h1 h2 h3 h4 with
                  | None => None
                  | Some u1 =>
                      match r2 with
                      | b :: u :: g1 :: g2 :: g3 :: g4 :: r3 =>
                          if is_high_surrogate u1 && (b =? BSLASH) && (u =? 117)
                          then match hex4 g1 g2 g3 g4 with
                               | None => None
                               | Some u2 =>
                                   if is_low_surrogate u2
                                   then '(t, rest) ← scan_string r3;
                                        Some (65536 + (u1 - 55296) * 1024 + (u2 - 56320) :: t, rest)
                                   else '(t, rest) ← scan_string r2; Some (u1 :: t, rest)
                               end
                          else '(t, rest) ← scan_string r2; Some (u1 :: t, rest)
                      | _ => '(t, rest) ← scan_string r2; Some (u1 :: t, rest)
                      end
                  end
              | _ => None
              end
            else match unescape e with
                 | Some ch => '(t, rest) ← scan_string r1; Some (ch :: t, rest)
                 | None => None
                 end
        end
      else if c <=? 31 then None
      else '(t, rest) ← scan_string r; Some (c :: t, rest)
  end.

(** The longest run of digits at the head, and what follows. *)
Fixpoint span_digits (s : pystr) : pystr * pystr :=
  match s with
  | [] => ([], [])
  | c :: r =>
      if is_digit c
      then let '(ds, rest) := span_digits r in (c :: ds, rest)
      else ([], s)
  end.

(** [int] of a run of digits. *)
Definition decimal (ds : pystr) : Z :=
  foldl (fun acc d => (acc * 10 + Z.of_N (d - 48))%Z) 0%Z ds.

(** A fraction [\.[0-9]+] at the head, if there is one. *)
Definition span_frac (s : pystr) : pystr * pystr :=
  match s with
  | dot :: r =>
      if dot =? 46
      then match span_digits r with
           | (d :: ds, rest) => (dot :: d :: ds, rest)
           | _ => ([], s)
           end
      else ([], s)
  | [] => ([], s)
  end.

(** An exponent [[eE][-+]?[0-9]+] at the head, if there is one. *)
Definition span_exp (s : pystr) : pystr * pystr :=
  match s with
  | e :: r =>
      if (e =? 101) || (e =? 69)
      then let '(sign, r1) :=
             match r with
             | g :: r' => if (g =? 45) || (g =? 43) then ([g], r') else ([], r)
             | [] => ([], r)
             end in
           match span_digits r1 with
           | (d :: ds, rest) => (e :: sign ++ d :: ds, rest)
           | _ => ([], s)
           end
      else ([], s)
  | [] => ([], s)
  end.

(** A number: an optional minus sign, then a lone 0 or a run of digits
    that starts with 1 to 9, then the optional fraction and exponent.
    Without either it is an [int], else a [float]. *)
Definition scan_number (s : pystr) : option (json * pystr) :=
  let '(sign, s1) :=
    match s with
    | c :: r => if c =? 45 then ([c], r) else ([], s)
    | [] => ([], s)
    end in
  match s1 with
  | [] => None
  | d :: r =>
      if is_digit d
      then let '(ds, r1) := if d =? 48 then ([], r) else span_digits r in
           let '(frac, r2) := span_frac r1 in
           let '(exp, r3) := span_exp r2 in
           match frac, exp with
           | [], [] =>
               Some (JInt (match sign with
                           | [] => decimal (d :: ds)
                           | _ :: _ => - decimal (d :: ds)
                           end), r3)
           | _, _ => Some (JFloat (sign ++ d :: ds ++ frac ++ exp), r3)
           end
      else None
  end.

(** [s] without the literal [lit] at its head. *)
Definition after_literal (lit : string) (s : pystr) : option pystr :=
  if is_prefix (py lit) s then Some (drop (length (py lit)) s) else None.

(** [dict] from the pairs of an object, in order: a repeated key keeps
    its first place and takes its last value. *)
Definition dict_of_pairs (pairs : list (pystr * json)) : list (pystr * json) :=
  foldl (fun d kv => dict_set kv.1 kv.2 d) [] pairs.

(** One value at the head of [s], and what follows it; [members] and
    [elements] read the inside of an object and of an array. *)
Definition value_at
    (members : pystr → option (list (pystr * json) * pystr))
    (elements : pystr → option (list json * pystr))
    (s : pystr) : option (json * pystr) :=
  match s with
  | [] => None
  | c :: r =>
      if c =? QUOTE then '(t, rest) ← scan_string r; Some (JStr t, rest)
      else if c =? LBRACE then
        match skip_ws r with
        | d :: r1 =>
            if d =? RBRACE then Some (JObj [], r1)
            else '(pairs, rest) ← members (d :: r1);
                 Some (JObj (dict_of_pairs pairs), rest)
        | [] => None
        end
      else if c =? LBRACKET then
        match skip_ws r with
        | d :: r1 =>
            if d =? RBRACKET then Some (JArr [], r1)
            else '(items, rest) ← elements (d :: r1);
                 Some (JArr items, rest)
        | [] => None
        end
      else match after_literal "null" s with
      | Some rest => Some (JNull, rest)
      | None =>
      match after_literal "true" s with
      | Some rest => Some (JBool true, rest)
      | None =>
      match after_literal "false" s with
      | Some rest => Some (JBool false, rest)
      | None =>
      match after_literal "NaN" s with
      | Some rest => Some (JFloat (py "NaN"), rest)
      | None =>
      match after_literal "Infinity" s with
      | Some rest => Some (JFloat (py "Infinity"), rest)
      | None =>
      match after_literal "-Infinity" s with
      | Some rest => Some (JFloat (py "-Infinity"), rest)
      | None => scan_number s
      end end end end end end
  end.

(** The members of an object, from its first key to its closing
    brace. *)
Definition members_at
    (value : pystr → option (json * pystr))
    (members : pystr → option (list (pystr * json) * pystr))
    (s : pystr) : option (list (pystr * json) * pystr) :=
  match s with
  | [] => None
  | c :: r =>
      if c =? QUOTE then
        '(key, r1) ← scan_string r;
        match skip_ws r1 with
        | colon :: r2 =>
            if colon =? 58 then
              '(v, r3) ← value (skip_ws r2);
              match skip_ws r3 with
              | d :: r4 =>
                  if d =? RBRACE then Some ([(key, v)], r4)
                  else if d =? COMMA then
                    '(pairs, rest) ← members (skip_ws r4);
                    Some ((key, v) :: pairs, rest)
                  else None
              | [] => None
              end
            else None
        | [] => None
        end
      else None
  end.

(** The elements of an array, from its first value to its closing
    bracket. *)
Definition elements_at
    (value : pystr → option (json * pystr))
    (elements : pystr → option (list json * pystr))
    (s : pystr) : option (list json * pystr) :=
  '(v, r1) ← value s;
  match skip_ws r1 with
  | d :: r2 =>
      if d =? RBRACKET then Some ([v], r2)
      else if d =? COMMA then
        '(items, rest) ← elements (skip_ws r2);
        Some (v :: items, rest)
      else None
  | [] => None
  end.

(** The three readers call one another; each call on the way down
    takes one unit of [fuel]. *)
Fixpoint parse_value (fuel : nat) (s : pystr) : option (json * pystr) :=
  match fuel with
  | O => None
  | S fuel' => value_at (parse_members fuel') (parse_elements fuel') s
  end
with parse_members (fuel : nat) (s : pystr) : option (list (pystr * json) * pystr) :=
  match fuel with
  | O => None
  | S fuel' => members_at (parse_value fuel') (parse_members fuel') s
  end
with parse_elements (fuel : nat) (s : pystr) : option (list json * pystr) :=
  match fuel with
  | O => None
  | S fuel' => elements_at (parse_value fuel') (parse_elements fuel') s
  end.

(** One value, whitespace around it allowed and nothing else. *)
Definition decode (fuel : nat) (s : pystr) : option json :=
  match s with
  | 65279 :: _ => None
  | _ =>
      '(v, rest) ← parse_value fuel (skip_ws s);
      match skip_ws rest with
      | [] => Some v
      | _ :: _ => None
      end
  end.

(** [json.loads(s)]; [None] stands for [JSONDecodeError].  Fuel beyond
    twice the length of the text changes nothing ([decode_fuel]). *)
Definition json_loads (s : pystr) : option json :=
  decode (S (2 * length s)) s.

(** A reader that hands back no more text than it was given. *)
Definition shrinks {A : Type} (g : pystr → option (A * pystr)) : Prop :=
  ∀ x a r, g x = Some (a, r) → (length r ≤ length x)%nat.

(** ** Exceptions, and the repeated call *)

(** The exceptions the program meets, by class.  [OtherError] is any
    class besides those named: a timeout of the request, a reply body
    that is no JSON, a missing key in it. *)
Inductive exn : Type :=
| HTTPError
| ConnectionError
| ValueError
| JSONDecodeError
| AttributeError
| RetryError
| OtherError.

#[global] Instance exn_eq_dec : EqDecision exn.
Proof. solve_decision. Defined.

Inductive outcome (A : Type) : Type :=
| Return (a : A)
| Raise (e : exn).
Arguments Return {A} a.
Arguments Raise {A} e.

(** What a decorated call did: how it ended, how many times the
    function ran, and the waits between the runs, in time units. *)
Record call (A : Type) : Type := Call {
  result : outcome A;
  attempts : nat;
  sleeps : list N
}.
Arguments Call {A} result attempts sleeps.
Arguments result {A} c.
Arguments attempts {A} c.
Arguments sleeps {A} c.

(** [wait_exponential(multiplier, min, max)] after attempt
    [attempt_number]: [multiplier * 2 ** (attempt_number - 1)], kept
    between [min] and [max]. *)
Definition wait_exponential (multiplier min max : N) (attempt_number : nat) : N :=
  N.max (N.max 0 min) (N.min (multiplier * 2 ^ N.of_nat (attempt_number - 1)) max).

(** [retry_if_exception_type(types)]. *)
Definition retry_if_exception_type (types : list exn) (e : exn) : bool :=
  bool_decide (e ∈ types).

Section Retry.
Context {A : Type}.
Context (wait : nat → N) (retry : exn → bool).
(** The decorated function at its [n]-th run. *)
Context (fn : nat → outcome A).

(** The loop of [@retry] with [stop_after_attempt(max)], at attempt
    [attempt_number] with [remaining = max - attempt_number]: the stop
    condition [attempt_number >= max] is [remaining = 0].  A result is
    returned; an exception outside [retry] is raised as it is; one
    inside it leads to [RetryError] at the stop and else to a wait and
    one more run. *)
Fixpoint retrying (remaining attempt_number : nat) (slept : list N) : call A :=
  match fn attempt_number with
  | Return a => Call (Return a) attempt_number slept
  | Raise e =>
      if retry e
      then match remaining with
           | O => Call (Raise RetryError) attempt_number slept
           | S k => retrying k (S attempt_number) (slept ++ [wait attempt_number])
           end
      else Call (Raise e) attempt_number slept
  end.

Definition with_retry (max_attempt_number : nat) : call A :=
  retrying (max_attempt_number - 1) 1 [].
End Retry.

(** ** [get_extracted_data] *)

(** What one request brings: an exception on the way ([post],
    [raise_for_status], [json()] and the subscripts), or the text of the
    model. *)
Inductive transport : Type :=
| Fails (e : exn)
| Replies (content : pystr).

Definition build_prompt (text : pystr) (fields : list pystr) : pystr :=
  py "Extract the following fields from this insurance report as key-value pairs:" ++ [NL]
  ++ py "Fields: " ++ py_join (py ", ") fields ++ [NL; NL]
  ++ py "Report:" ++ [NL] ++ text ++ [NL; NL]
  ++ py "Output ONLY valid JSON with double quotes. DO NOT include comments or explanations.".

(** [v if v is not None else '']. *)
Definition null_as_empty (v : json) : json :=
  match v with
  | JNull => JStr []
  | _ => v
  end.

(** [{k: (v if v is not None else '') for k, v in data.items()}]. *)
Definition null_to_empty (data : list (pystr * json)) : list (pystr * json) :=
  (fun kv => (kv.1, null_as_empty (kv.2))) <$> data.

(** From [content] on: the block, its repair, the decoding. *)
Definition parse_reply (content : pystr) : outcome (list (pystr * json)) :=
  match search_json_block content with
  | Some json_str =>
      match json_loads (sanitize json_str) with
      | Some (JObj data) => Return (null_to_empty data)
      | Some _ => Raise AttributeError
      | None => Raise JSONDecodeError
      end
  | None => Raise ValueError
  end.

(** The body of the function, given what the request brings. *)
Definition extract_once (reply : transport) : outcome (list (pystr * json)) :=
  match reply with
  | Fails e => Raise e
  | Replies content => parse_reply content
  end.

(** The decorated function.  [remote n prompt] is what the [n]-th
    request of the run brings, counted from 0; [sent] requests went out
    before this call. *)
Definition get_extracted_data (remote : nat → pystr → transport) (sent : nat)
    (text : pystr) (fields : list pystr) : call (list (pystr * json)) :=
  with_retry (wait_exponential 1 4 10)
             (retry_if_exception_type [HTTPError; ConnectionError])
             (fun attempt_number =>
                extract_once (remote (sent + (attempt_number - 1))%nat (build_prompt text fields)))
             3.

(** ** The loop of [main] over [pdf_files] *)

(** A report with no text is passed over, an exception ends the run. *)
Fixpoint process_reports (remote : nat → pystr → transport) (template_fields : list pystr)
    (pdf_files : list (list (option pystr))) (sent : nat)
    (all_key_value_pairs : list (list (pystr * json))) : outcome (list (list (pystr * json))) :=
  match pdf_files with
  | [] => Return all_key_value_pairs
  | pdf_file :: rest =>
      match extract_text_from_pdf pdf_file with
      | [] => process_reports remote template_fields rest sent all_key_value_pairs
      | c :: t =>
          let run := get_extracted_data remote sent (c :: t) template_fields in
          match result run with
          | Return kv_pairs =>
              process_reports remote template_fields rest (sent + attempts run)%nat
                              (all_key_value_pairs ++ [kv_pairs])
          | Raise e => Raise e
          end
      end
  end.

(** A decoded value that is a [str]. *)
Definition is_str (v : json) : Prop :=
  match v with
  | JStr _ => True
  | _ => False
  end.

(** The reply the specification takes as its example. *)
Definition sample_reply : pystr :=
  py "Here is the data:" ++ [NL]
  ++ py "{" ++ q "A" ++ py ": " ++ q "foo" ++ py ", " ++ q "B" ++ py ": 5,}" ++ [NL]
  ++ py "Thanks!".

(** A template with the one field A, and a model that answers every
    request with the keys Z and A. *)
Definition sample_template : document :=
  {| paragraphs := [py "Insured: [A]"]; tables := [] |}.

Definition sample_remote (n : nat) (prompt : pystr) : transport :=
  Replies (py "{" ++ q "Z" ++ py ": 5, " ++ q "A" ++ py ": null}").

(** [if report_text:] for the text of a report. *)
Definition has_text (pdf_file : list (option pystr)) : bool :=
  match extract_text_from_pdf pdf_file with
  | [] => false
  | _ :: _ => true
  end.

(** ** [main], from the press of the button to the filled document *)

(** How a run ends: one of the three messages of [st.error] and a
    [return], an exception that leaves [get_extracted_data], or the
    merged map and the filled document that is saved. *)
Inductive main_result : Type :=
| UploadMissing
| NoFields
| NoData
| Raised (e : exn)
| Filled (combined_kv : list (pystr * json)) (filled_doc : document).

Section Main.
(** [str(value)] on decoded values. *)
Context (py_str : json → pystr).

(** [template_file] is [None] when nothing was uploaded; [not pdf_files]
    holds for no upload and for the empty list alike. *)
Definition main (remote : nat → pystr → transport) (template_file : option document)
    (pdf_files : list (list (option pystr))) : main_result :=
  match template_file, pdf_files with
  | None, _ => UploadMissing
  | Some _, [] => UploadMissing
  | Some template, _ :: _ =>
      match extract_template_fields template with
      | [] => NoFields
      | f :: fs =>
          match process_reports remote (f :: fs) pdf_files 0 [] with
          | Raise e => Raised e
          | Return [] => NoData
          | Return (kv :: kvs) =>
              let combined_kv := combine_kv (kv :: kvs) in
              Filled combined_kv (fill_template py_str template combined_kv)
          end
      end
  end.
End Main.

(** A text whose opening brackets all open a placeholder with a name
    without brackets. *)
Definition text_ok (text : pystr) : Prop :=
  ∃ ps, text = render ps ∧ Forall piece_ok ps.

(** A model that answers every request with the one field A, a string. *)
Definition acme_remote (n : nat) (prompt : pystr) : transport :=
  Replies (py "{" ++ q "A" ++ py ": " ++ q "Acme" ++ py "}").

(** [str(value)] where the values met are strings, which are their own
    text. *)
Definition str_of_str (v : json) : pystr :=
  match v with
  | JStr s => s
  | _ => []
  end.

(** * Properties *)

(** ** Dictionaries *)

Section DictFacts.
Context {V : Type}.
Implicit Types (d : list (pystr * V)) (v : V) (k : pystr).

Lemma dict_get_set_eq k v d : dict_get k (dict_set k v d) = Some v.
Proof.
  induction d as [|[k' v'] r IH]; simpl.
  - by rewrite decide_True.
  - destruct (decide (k' = k)) as [->|Hne]; simpl.
    + by rewrite decide_True.
    + by rewrite decide_False.
Qed.

Lemma dict_get_set_ne k k' v d :
  k ≠ k' → dict_get k' (dict_set k v d) = dict_get k' d.
Proof.
  intros Hne. induction d as [|[k0 v0] r IH]; simpl.
  - by rewrite decide_False.
  - destruct (decide (k0 = k)) as [->|Hk]; simpl.
    + by rewrite !decide_False.
    + by rewrite IH.
Qed.

Lemma dict_get_None k d : dict_get k d = None ↔ k ∉ keys d.
Proof.
  unfold keys. induction d as [|[k' v'] r IH]; simpl.
  - split; [intros _; apply not_elem_of_nil | done].
  - rewrite not_elem_of_cons. destruct (decide (k' = k)) as [->|Hne].
    + split; [done | intros [? _]; done].
    + rewrite IH. split; [intros ?; split; [congruence | done] | by intros [_ ?]].
Qed.

Lemma dict_get_Some_elem k v d : dict_get k d = Some v → (k, v) ∈ d.
Proof.
  induction d as [|[k' v'] r IH]; simpl; [done|].
  destruct (decide (k' = k)) as [->|Hne].
  - intros [= ->]. apply list_elem_of_here.
  - intros H. apply list_elem_of_further. auto.
Qed.

Lemma dict_get_elem k v d : dict_wf d → (k, v) ∈ d → dict_get k d = Some v.
Proof.
  unfold dict_wf, keys. induction d as [|[k' v'] r IH]; simpl.
  - intros _ H. by apply elem_of_nil in H.
  - rewrite NoDup_cons. intros [Hk Hr] Hin.
    apply elem_of_cons in Hin as [[= -> ->]|Hin].
    + by rewrite decide_True.
    + destruct (decide (k' = k)) as [->|Hne]; [|by apply IH].
      exfalso. apply Hk. apply list_elem_of_fmap. by exists (k, v).
Qed.

Lemma dict_set_new k v d : k ∉ keys d → dict_set k v d = d ++ [(k, v)].
Proof.
  unfold keys. induction d as [|[k' v'] r IH]; simpl; [done|].
  rewrite not_elem_of_cons. intros [Hne Hr].
  rewrite decide_False by congruence. by rewrite IH.
Qed.

Lemma keys_dict_set k v d :
  keys (dict_set k v d) = if decide (k ∈ keys d) then keys d else keys d ++ [k].
Proof.
  unfold keys. induction d as [|[k' v'] r IH].
  - destruct (decide (k ∈ ([] : list (pystr * V)).*1)) as [Hin|Hin]; [|done].
    by apply elem_of_nil in Hin.
  - cbn [dict_set]. destruct (decide (k' = k)) as [->|Hne].
    + rewrite decide_True; [done | apply list_elem_of_here].
    + rewrite !fmap_cons, IH. cbn [fst].
      destruct (decide (k ∈ r.*1)) as [Hin|Hin].
      * rewrite decide_True; [done | by apply list_elem_of_further].
      * rewrite decide_False; [done|].
        rewrite not_elem_of_cons. split; [congruence | done].
Qed.
End DictFacts.

(** ** The merge *)

Lemma is_empty_str_true v : is_empty_str v = true → v = JStr [].
Proof. destruct v as [| | | |[|]| |]; simpl; congruence. Qed.

(** What a run of the inner loop leaves under key [k], from any
    starting dictionary. *)
Lemma merge_items_get items : ∀ acc k,
  dict_get k (foldl merge_item acc items) =
    match dict_get k acc with
    | Some cur =>
        if is_empty_str cur
        then match List.find (fun kv => bool_decide (kv.1 = k) && negb (is_empty_str kv.2)) items with
             | Some kv => Some kv.2
             | None => Some cur
             end
        else Some cur
    | None => first_nonempty_wins k items
    end.
Proof.
  unfold first_nonempty_wins.
  induction items as [|[k0 v0] r IH]; intros acc k.
  - cbn [foldl List.find]. destruct (dict_get k acc) as [cur|]; [by destruct (is_empty_str cur)|].
    destruct (decide _) as [Hin|]; [by apply elem_of_nil in Hin | done].
  - cbn [foldl]. rewrite IH. clear IH. cbn [List.find fst snd fmap list_fmap].
    destruct (decide (k0 = k)) as [->|Hne].
    + rewrite bool_decide_eq_true_2 by done. cbn [andb].
      rewrite (decide_True (P := k ∈ k :: _)) by apply list_elem_of_here.
      unfold merge_item.
      destruct (dict_get k acc) as [cur|] eqn:Hacc.
      * destruct (is_empty_str cur) eqn:Hcur; cbn [andb].
        -- destruct (is_empty_str v0) eqn:Hv0; cbn [negb].
           ++ by rewrite Hacc, Hcur.
           ++ by rewrite dict_get_set_eq, Hv0.
        -- by rewrite Hacc, Hcur.
      * rewrite dict_get_set_eq.
        destruct (is_empty_str v0) eqn:Hv0; cbn [negb]; [|done].
        apply is_empty_str_true in Hv0 as ->.
        by destruct (List.find _ r).
    + rewrite bool_decide_eq_false_2 by done. cbn [andb].
      assert (dict_get k (merge_item acc (k0, v0)) = dict_get k acc) as ->.
      { unfold merge_item. destruct (dict_get k0 acc) as [cur|].
        - destruct (_ && _); [by apply dict_get_set_ne | done].
        - by apply dict_get_set_ne. }
      destruct (dict_get k acc) as [cur|]; [done|].
      destruct (List.find _ r); [done|].
      destruct (decide (k ∈ r.*1)) as [Hin|Hin].
      * rewrite decide_True; [done | by apply list_elem_of_further].
      * rewrite decide_False; [done|].
        rewrite not_elem_of_cons. split; [congruence | done].
Qed.

Lemma combine_kv_concat kvs : ∀ acc,
  foldl (fun combined_kv kv => foldl merge_item combined_kv kv) acc kvs
  = foldl merge_item acc (mjoin kvs).
Proof.
  induction kvs as [|kv kvs IH]; intros acc; simpl; [done|].
  by rewrite IH, foldl_app.
Qed.

Lemma merge_item_wf acc item : dict_wf acc → dict_wf (merge_item acc item).
Proof.
  destruct item as [k v]. unfold merge_item, dict_wf. intros Hwf.
  assert (NoDup (keys (dict_set k v acc))) as Hset.
  { rewrite keys_dict_set. case_decide as Hin; [done|].
    apply NoDup_app. repeat split; [done| |apply NoDup_singleton].
    intros x Hx ->%list_elem_of_singleton. done. }
  destruct (dict_get k acc) as [cur|]; [|done].
  by destruct (_ && _).
Qed.

Lemma merge_items_wf items : ∀ acc, dict_wf acc → dict_wf (foldl merge_item acc items).
Proof.
  induction items as [|item r IH]; intros acc Hwf; simpl; [done|].
  by apply IH, merge_item_wf.
Qed.

Lemma first_nonempty_wins_elem k v items :
  first_nonempty_wins k items = Some v → (k, v) ∈ items.
Proof.
  unfold first_nonempty_wins.
  destruct (List.find _ items) as [[k' v']|] eqn:Hfind.
  - intros [= <-]. apply find_some in Hfind as [Hin Hk].
    apply andb_true_iff in Hk as [Hk _]. apply bool_decide_eq_true in Hk. cbn in Hk.
    subst k'. by apply list_elem_of_In.
  - case_decide as Hin; [|done]. intros [= <-].
    apply list_elem_of_fmap in Hin as ([k' v'] & -> & Hin).
    pose proof (find_none _ _ Hfind _ (proj1 (list_elem_of_In _ _) Hin)) as Hf.
    cbn in Hf. rewrite bool_decide_eq_true_2 in Hf by done. cbn in Hf.
    apply negb_false_iff, is_empty_str_true in Hf as ->. done.
Qed.

Lemma first_nonempty_wins_None k items :
  first_nonempty_wins k items = None ↔ k ∉ items.*1.
Proof.
  unfold first_nonempty_wins. split.
  - destruct (List.find _ items); [done|]. by case_decide.
  - intros Hk. destruct (List.find _ items) as [[k' v']|] eqn:Hfind.
    + exfalso. apply find_some in Hfind as [Hin Hf].
      apply andb_true_iff in Hf as [Hf _]. apply bool_decide_eq_true in Hf. cbn in Hf.
      subst k'. apply Hk. apply list_elem_of_fmap. exists (k, v').
      split; [done | by apply list_elem_of_In].
    + by rewrite decide_False.
Qed.

Lemma combine_kv_get kvs k :
  dict_get k (combine_kv kvs) = first_nonempty_wins k (mjoin kvs).
Proof. unfold combine_kv. by rewrite combine_kv_concat, merge_items_get. Qed.

Lemma combine_kv_wf kvs : dict_wf (combine_kv kvs).
Proof.
  unfold combine_kv. rewrite combine_kv_concat. apply merge_items_wf, NoDup_nil_2.
Qed.

Lemma first_nonempty_wins_dict k (kv : list (pystr * json)) :
  dict_wf kv → first_nonempty_wins k kv = dict_get k kv.
Proof.
  intros Hwf. destruct (dict_get k kv) as [v|] eqn:Hget.
  - destruct (first_nonempty_wins k kv) as [v'|] eqn:Hf.
    + apply first_nonempty_wins_elem in Hf. apply (dict_get_elem _ _ _ Hwf) in Hf. congruence.
    + apply first_nonempty_wins_None in Hf. apply dict_get_None in Hf. congruence.
  - by apply first_nonempty_wins_None, dict_get_None.
Qed.

(** What one more map does to the merged value of a key. *)
Lemma combine_kv_snoc kvs (kv : list (pystr * json)) k :
  dict_wf kv →
  dict_get k (combine_kv (kvs ++ [kv])) =
    match dict_get k (combine_kv kvs), dict_get k kv with
    | None, new => new
    | Some cur, Some v => if is_empty_str cur && negb (is_empty_str v) then Some v else Some cur
    | Some cur, None => Some cur
    end.
Proof.
  intros Hwf. unfold combine_kv. rewrite foldl_app. cbn [foldl].
  rewrite merge_items_get.
  destruct (dict_get k (foldl _ [] kvs)) as [cur|]; [|by apply first_nonempty_wins_dict].
  destruct (List.find _ kv) as [[k' v']|] eqn:Hfind.
  - apply find_some in Hfind as [Hin Hf]. apply andb_true_iff in Hf as [Hk Hne].
    apply bool_decide_eq_true in Hk. cbn in Hk, Hne. subst k'.
    apply list_elem_of_In, (dict_get_elem _ _ _ Hwf) in Hin. rewrite Hin, Hne.
    by destruct (is_empty_str cur).
  - destruct (dict_get k kv) as [v|] eqn:Hget; [|by destruct (is_empty_str cur)].
    apply dict_get_Some_elem, list_elem_of_In in Hget.
    pose proof (find_none _ _ Hfind _ Hget) as Hf. cbn in Hf.
    rewrite bool_decide_eq_true_2 in Hf by done. cbn in Hf. rewrite Hf.
    by destruct (is_empty_str cur).
Qed.

(** C1: for every sequence of maps and every key, the merged map holds
    the first non-empty value seen for the key, the empty string when
    the key only had empty values, and nothing for a key never seen.
    Map by map: the first value seen for a key is stored; a later
    non-empty value replaces a stored empty string; a stored non-empty
    value is never replaced.  The merged map is a dictionary, and
    merging [{X: empty, Y: 1}, {X: 2, Y: 9}] gives {X: 2, Y: 1}. *)
Theorem combine_kv_first_nonempty_wins :
  (∀ kvs k, dict_get k (combine_kv kvs) = first_nonempty_wins k (mjoin kvs))
  ∧ (∀ kvs kv k, dict_wf kv →
       dict_get k (combine_kv (kvs ++ [kv])) =
         match dict_get k (combine_kv kvs), dict_get k kv with
         | None, new => new
         | Some cur, Some v =>
             if is_empty_str cur && negb (is_empty_str v) then Some v else Some cur
         | Some cur, None => Some cur
         end)
  ∧ (∀ kvs, dict_wf (combine_kv kvs))
  ∧ combine_kv [ [(py "X", JStr []); (py "Y", JStr (py "1"))];
                 [(py "X", JStr (py "2")); (py "Y", JStr (py "9"))] ]
    = [(py "X", JStr (py "2")); (py "Y", JStr (py "1"))].
Proof.
  split; [|split; [|split]].
  - apply combine_kv_get.
  - apply combine_kv_snoc.
  - apply combine_kv_wf.
  - vm_compute. reflexivity.
Qed.

(** After {X: empty, Y: 1}, the map {X: 2, Y: 9} replaces the empty
    string under X and leaves Y. *)
Lemma combine_kv_first_nonempty_wins_witness :
  let kvs := [[(py "X", JStr []); (py "Y", JStr (py "1"))]] in
  let kv := [(py "X", JStr (py "2")); (py "Y", JStr (py "9"))] in
  dict_get (py "X") (combine_kv (kvs ++ [kv])) = Some (JStr (py "2"))
  ∧ dict_get (py "Y") (combine_kv (kvs ++ [kv])) = Some (JStr (py "1")).
Proof.
  intros kvs kv.
  destruct combine_kv_first_nonempty_wins as (_ & Hstep & _).
  assert (dict_wf kv) as Hwf by (apply (bool_decide_unpack _); vm_compute; exact I).
  split.
  - exact (Hstep kvs kv (py "X") Hwf).
  - exact (Hstep kvs kv (py "Y") Hwf).
Defined.

Lemma merge_items_fresh items : ∀ acc,
  NoDup (keys acc ++ keys items) → foldl merge_item acc items = acc ++ items.
Proof.
  unfold keys.
  induction items as [|[k v] r IH]; intros acc Hnd; simpl.
  - by rewrite app_nil_r.
  - rewrite fmap_cons in Hnd. cbn [fst] in Hnd.
    assert (k ∉ acc.*1) as Hk.
    { apply NoDup_app in Hnd as (_ & Hdisj & _). intros Hin.
      by apply (Hdisj k Hin), list_elem_of_here. }
    apply (dict_get_None (V:=json)) in Hk as Hget. rewrite Hget.
    rewrite dict_set_new by done.
    rewrite IH; [by rewrite <- app_assoc|].
    rewrite fmap_app, <- app_assoc. done.
Qed.

Lemma merge_items_again m items :
  dict_wf m → items ⊆ m → foldl merge_item m items = m.
Proof.
  intros Hwf. induction items as [|[k v] r IH]; intros Hsub; simpl; [done|].
  rewrite (dict_get_elem k v m Hwf) by (apply Hsub, list_elem_of_here).
  assert (is_empty_str v && negb (is_empty_str v) = false) as -> by by destruct (is_empty_str v).
  apply IH. intros x Hx. by apply Hsub, list_elem_of_further.
Qed.

(** C10: for every field-value map [m] (a dictionary: distinct keys),
    merging the one-element sequence [m] gives [m] itself, and merging
    [m, m] gives the same result as merging [m]. *)
Theorem combine_kv_idempotent (m : list (pystr * json)) :
  dict_wf m → combine_kv [m] = m ∧ combine_kv [m; m] = combine_kv [m].
Proof.
  intros Hwf.
  assert (combine_kv [m] = m) as H1.
  { unfold combine_kv. simpl. by rewrite merge_items_fresh. }
  split; [done|].
  rewrite H1. unfold combine_kv in *. simpl in *. rewrite H1.
  by apply merge_items_again.
Qed.

Lemma combine_kv_idempotent_witness :
  let m := [(py "X", JStr []); (py "Y", JInt 1)] in
  combine_kv [m] = m ∧ combine_kv [m; m] = combine_kv [m].
Proof.
  apply combine_kv_idempotent. apply (bool_decide_unpack _). vm_compute. exact I.
Defined.

(** ** The text of a report *)

Lemma extract_pages_from pages : ∀ text,
  foldl add_page text pages = text ++ (page_texts pages ≫= fun t => t ++ [NL]).
Proof.
  unfold page_texts.
  induction pages as [|page_text pages IH]; intros text; simpl.
  - by rewrite app_nil_r.
  - rewrite IH. destruct page_text as [[|c r]|]; simpl; try done.
    by rewrite <- (app_assoc text).
Qed.

Lemma join_lines (texts : list pystr) :
  (texts ≫= fun t => t ++ [NL]) =
    match texts with
    | [] => []
    | _ :: _ => py_join [NL] texts ++ [NL]
    end.
Proof.
  induction texts as [|t r IH]; [done|].
  cbn [mbind list_bind py_join]. rewrite <- app_assoc.
  fold (mbind (M:=list) (fun t : pystr => t ++ [NL]) r). rewrite IH.
  destruct r as [|t' r]; [done|].
  by rewrite <- !app_assoc.
Qed.

(** C5, as the code has it: the result is the text of each page that
    yields one, each followed by a line feed, in page order: the texts
    joined by a line feed and one more line feed at the end.  A page
    with no text ([None] or the empty text) adds nothing, and the result
    is empty when no page yields text. *)
Theorem extract_text_from_pdf_lines (pages : list (option pystr)) :
  extract_text_from_pdf pages = (page_texts pages ≫= fun t => t ++ [NL])
  ∧ extract_text_from_pdf pages =
      match page_texts pages with
      | [] => []
      | _ :: _ => py_join [NL] (page_texts pages) ++ [NL]
      end
  ∧ extract_text_from_pdf (pages ++ [None]) = extract_text_from_pdf pages
  ∧ extract_text_from_pdf (pages ++ [Some []]) = extract_text_from_pdf pages.
Proof.
  unfold extract_text_from_pdf.
  split; [apply extract_pages_from|].
  split; [by rewrite extract_pages_from, join_lines|].
  rewrite !foldl_app. done.
Qed.

(** C5 as stated fails: the one page "a" gives "a" and a line feed, not
    the join of the page texts, which is "a". *)
Lemma extract_text_from_pdf_not_join :
  let texts := [py "a"] in
  Forall (fun t => t ≠ []) texts
  ∧ extract_text_from_pdf (Some <$> texts) ≠ py_join [NL] texts
  ∧ extract_text_from_pdf (Some <$> texts) = py "a" ++ [NL].
Proof.
  split; [by repeat constructor|]. split; [|reflexivity].
  vm_compute. discriminate.
Qed.

(** ** The scanner *)

Lemma field_char_not_bracket c : is_field_char c = true → c ≠ LBRACKET ∧ c ≠ RBRACKET.
Proof. intros H. split; intros ->; vm_compute in H; discriminate. Qed.

Lemma span_field_spec s name rest :
  span_field s = (name, rest) →
  s = name ++ rest ∧ Forall (fun c => is_field_char c = true) name.
Proof.
  revert name rest. induction s as [|c r IH]; intros name rest; simpl.
  - intros [= <- <-]. by split.
  - destruct (is_field_char c) eqn:Hc.
    + destruct (span_field r) as [n r'] eqn:Hspan. intros [= <- <-].
      destruct (IH n r' eq_refl) as [-> Hn]. split; [done | by constructor].
    + intros [= <- <-]. by split.
Qed.

Lemma span_field_name k rest :
  Forall (fun c => is_field_char c = true) k →
  span_field (k ++ RBRACKET :: rest) = (k, RBRACKET :: rest).
Proof.
  induction 1 as [|c k Hc _ IH]; simpl; [done|].
  by rewrite Hc, IH.
Qed.

Lemma match_field_Some s k :
  match_field s = Some k → is_field_name k ∧ ∃ rest, s = placeholder k ++ rest.
Proof.
  unfold match_field, is_field_name, placeholder.
  destruct s as [|c r]; [done|].
  destruct (N.eqb_spec c LBRACKET) as [->|]; [|done].
  destruct (span_field r) as [[|d name] [|e rest]] eqn:Hspan; try done.
  destruct (N.eqb_spec e RBRACKET) as [->|]; [|done].
  intros [= <-]. apply span_field_spec in Hspan as [-> Hname].
  split; [done|]. exists rest. simpl. by rewrite <- app_assoc.
Qed.

Lemma match_field_placeholder k rest :
  is_field_name k → match_field (placeholder k ++ rest) = Some k.
Proof.
  intros [Hne Hk]. unfold placeholder, match_field. simpl.
  rewrite <- app_assoc. simpl. rewrite span_field_name by done.
  by destruct k.
Qed.

Lemma match_field_None c r : c ≠ LBRACKET → match_field (c :: r) = None.
Proof. intros Hc. simpl. by destruct (N.eqb_spec c LBRACKET). Qed.

(** No match starts inside the one just found, so passing over it and
    trying every position give the same list. *)
Lemma findall_from_skip s : ∀ skip,
  Forall (fun c => c ≠ LBRACKET) (take skip s) → findall_from skip s = findall_from 0 s.
Proof.
  induction s as [|c r IH]; intros [|n]; simpl; try done.
  intros [Hc Hr]%Forall_cons. rewrite IH by done.
  destruct (N.eqb_spec c LBRACKET); done.
Qed.

Lemma findall_from_cons c r :
  findall_from 0 (c :: r) =
    match match_field (c :: r) with
    | Some k => k :: findall_from 0 r
    | None => findall_from 0 r
    end.
Proof.
  cbn [findall_from]. destruct (match_field (c :: r)) as [k|] eqn:Hm; [|done].
  f_equal. apply findall_from_skip.
  apply match_field_Some in Hm as [[_ Hk] [rest Heq]].
  unfold placeholder in Heq. simpl in Heq. injection Heq as -> ->.
  rewrite take_app_length'; [|by rewrite length_app; simpl; lia].
  apply Forall_app. split.
  - eapply Forall_impl; [done|]. intros x Hx. by apply field_char_not_bracket.
  - by repeat constructor.
Qed.

Lemma elem_of_findall_fields k text :
  k ∈ findall_fields text ↔ is_field_name k ∧ occurs_in (placeholder k) text.
Proof.
  unfold findall_fields, occurs_in. split.
  - induction text as [|c r IH]; [by intros ?%elem_of_nil|].
    rewrite findall_from_cons.
    assert (k ∈ findall_from 0 r →
            is_field_name k ∧ ∃ pre post, c :: r = pre ++ placeholder k ++ post) as Htail.
    { intros (Hk & pre & post & ->)%IH. split; [done|]. by exists (c :: pre), post. }
    destruct (match_field (c :: r)) as [k'|] eqn:Hm; [|done].
    intros [->|Hin]%elem_of_cons; [|by apply Htail].
    apply match_field_Some in Hm as [Hk [rest ->]].
    split; [done|]. by exists [], rest.
  - intros (Hk & pre & post & ->). induction pre as [|c pre IH].
    + change ([] ++ placeholder k ++ post) with (LBRACKET :: (k ++ [RBRACKET]) ++ post).
      rewrite findall_from_cons.
      change (LBRACKET :: (k ++ [RBRACKET]) ++ post) with (placeholder k ++ post).
      rewrite match_field_placeholder by done. apply list_elem_of_here.
    + change ((c :: pre) ++ placeholder k ++ post) with (c :: (pre ++ placeholder k ++ post)).
      rewrite findall_from_cons. destruct (match_field _); [apply list_elem_of_further|]; done.
Qed.

Lemma elem_of_scan_texts k texts : ∀ fields,
  k ∈ scan_texts fields texts ↔ k ∈ fields ∨ ∃ text, text ∈ texts ∧ k ∈ findall_fields text.
Proof.
  unfold scan_texts. induction texts as [|t r IH]; intros fields; simpl.
  - split; [by left|]. intros [?|(? & ?%elem_of_nil & _)]; done.
  - rewrite IH, elem_of_union, elem_of_list_to_set. split.
    + intros [[?|?]|(text & ? & ?)]; [by left | right; exists t | right; exists text];
        (split; [|done]); [apply list_elem_of_here | by apply list_elem_of_further].
    + intros [?|(text & [->|?]%elem_of_cons & ?)]; [by left; left | by left; right|].
      right. by exists text.
Qed.

Lemma elem_of_scan_rows k (rows : list (list pystr)) : ∀ fields,
  k ∈ foldl (fun fields row => scan_texts fields row) fields rows
  ↔ k ∈ fields ∨ ∃ text, text ∈ mjoin rows ∧ k ∈ findall_fields text.
Proof.
  induction rows as [|row r IH]; intros fields; simpl.
  - split; [by left|]. intros [?|(? & ?%elem_of_nil & _)]; done.
  - rewrite IH, elem_of_scan_texts. setoid_rewrite elem_of_app. naive_solver.
Qed.

Lemma elem_of_scan_tables k (tbls : list (list (list pystr))) : ∀ fields,
  k ∈ foldl (fun fields table => foldl (fun fields row => scan_texts fields row) fields table)
        fields tbls
  ↔ k ∈ fields ∨ ∃ text, text ∈ mjoin (mjoin tbls) ∧ k ∈ findall_fields text.
Proof.
  induction tbls as [|t r IH]; intros fields; simpl.
  - split; [by left|]. intros [?|(? & ?%elem_of_nil & _)]; done.
  - rewrite IH, elem_of_scan_rows, join_app. setoid_rewrite elem_of_app. naive_solver.
Qed.

Lemma str_leb_total a : ∀ b, str_leb a b = true ∨ str_leb b a = true.
Proof.
  induction a as [|x a IH]; intros [|y b]; simpl; auto.
  destruct (N.ltb_spec x y), (N.ltb_spec y x), (N.eqb_spec x y), (N.eqb_spec y x);
    auto; lia.
Qed.

Lemma str_leb_trans a : ∀ b c, str_leb a b = true → str_leb b c = true → str_leb a c = true.
Proof.
  induction a as [|x a IH]; intros [|y b] [|z c]; simpl; try done.
  destruct (N.ltb_spec x y), (N.ltb_spec y z), (N.ltb_spec x z),
    (N.eqb_spec x y), (N.eqb_spec y z), (N.eqb_spec x z); try done; try lia.
  apply IH.
Qed.

#[global] Instance str_le_total : Total str_le.
Proof. intros a b. apply str_leb_total. Qed.

#[global] Instance str_le_trans : Transitive str_le.
Proof. intros a b c. apply str_leb_trans. Qed.

(** C2: for every template, the scanner returns a list in ascending
    order without repetition, and a name is in it exactly when it is one
    or more characters of [A-Z0-9_] and occurs between brackets in the
    text of a paragraph or of a table cell; a paragraph holding [A], [B]
    and [A] again, with a cell holding [B], gives A and B. *)
Theorem extract_template_fields_spec :
  (∀ doc k,
     k ∈ extract_template_fields doc
     ↔ is_field_name k ∧ ∃ text, text ∈ doc_texts doc ∧ occurs_in (placeholder k) text)
  ∧ (∀ doc, StronglySorted str_le (extract_template_fields doc)
            ∧ NoDup (extract_template_fields doc))
  ∧ extract_template_fields
      {| paragraphs := [py "Insured: [A], policy [B] ([A])"];
         tables := [[[py "Name"; py "[B]"]]] |}
    = [py "A"; py "B"].
Proof.
  split; [|split].
  - intros doc k. unfold extract_template_fields, sorted, doc_texts.
    rewrite merge_sort_Permutation, elem_of_elements, elem_of_scan_tables, elem_of_scan_texts.
    setoid_rewrite elem_of_app. setoid_rewrite elem_of_findall_fields.
    split.
    + intros [[?%elem_of_empty|(t & ? & ? & ?)]|(t & ? & ? & ?)]; [done| |]; split; eauto.
    + intros (Hk & t & [?|?] & ?); [left; right | right]; eauto.
  - intros doc. unfold extract_template_fields, sorted. split.
    + apply StronglySorted_merge_sort; apply _.
    + rewrite merge_sort_Permutation. apply NoDup_elements.
  - vm_compute. reflexivity.
Qed.

(** ** [str.replace] and [in] *)

Lemma is_prefix_spec p : ∀ s, is_prefix p s = true ↔ ∃ r, s = p ++ r.
Proof.
  induction p as [|x p IH]; intros s; simpl.
  - split; [by exists s | done].
  - destruct s as [|y s]; [split; [done | by intros [? ?]]|].
    rewrite andb_true_iff, N.eqb_eq, IH. split.
    + intros [-> [r ->]]. by exists r.
    + intros [r [= -> ->]]. split; [done | by exists r].
Qed.

Lemma is_prefix_app p r : is_prefix p (p ++ r) = true.
Proof. apply is_prefix_spec. by exists r. Qed.

Lemma replace_from_skip old new s pre : ∀ n,
  length pre = n → replace_from old new n (pre ++ s) = replace_from old new 0 s.
Proof.
  induction pre as [|c pre IH]; intros n <-; [done|].
  simpl. by apply IH.
Qed.

Lemma replace_from_match old new s :
  old ≠ [] → replace_from old new 0 (old ++ s) = new ++ replace_from old new 0 s.
Proof.
  destruct old as [|x o]; [done|]. intros _.
  change ((x :: o) ++ s) with (x :: (o ++ s)). cbn [replace_from].
  change (x :: (o ++ s)) with ((x :: o) ++ s). rewrite is_prefix_app.
  f_equal. apply replace_from_skip. simpl. lia.
Qed.

Lemma replace_from_pass old new c r :
  is_prefix old (c :: r) = false →
  replace_from old new 0 (c :: r) = c :: replace_from old new 0 r.
Proof. intros H. cbn [replace_from]. by rewrite H. Qed.

(** Where the text does not hold [old], [replace] returns it as it is:
    the guard [if placeholder in text] changes nothing. *)
Lemma replace_from_absent old new s :
  contains old s = false → replace_from old new 0 s = s.
Proof.
  induction s as [|c r IH]; [done|].
  cbn [contains]. intros [Hp Hr]%orb_false_iff.
  rewrite replace_from_pass by done. by rewrite IH.
Qed.

Section FillFacts.
Context {V : Type} (py_str : V → pystr).
Implicit Types (kv : list (pystr * V)) (ps : list piece) (k key new : pystr).

Lemma fill_step_replace text key (v : V) :
  fill_step py_str text (key, v) = replace_from (placeholder key) (py_str v) 0 text.
Proof.
  unfold fill_step. destruct (contains _ _) eqn:Hc; [done|].
  by rewrite replace_from_absent.
Qed.

Lemma render_app ps1 ps2 : render (ps1 ++ ps2) = render ps1 ++ render ps2.
Proof. apply bind_app. Qed.

Lemma render_lits (t : pystr) : render (Lit <$> t) = t.
Proof.
  induction t as [|c t IH]; [done|].
  change (render (Lit <$> (c :: t))) with (c :: render (Lit <$> t)). by rewrite IH.
Qed.

(** A name without brackets ends at the first closing bracket. *)
Lemma name_until_bracket (a b : pystr) x r r' :
  x ∉ a → x ∉ b → a ++ x :: r = b ++ x :: r' → a = b.
Proof.
  revert b. induction a as [|c a IH]; intros [|d b] Ha Hb Heq; simpl in Heq.
  - done.
  - injection Heq as -> _. exfalso. apply Hb, list_elem_of_here.
  - injection Heq as -> _. exfalso. apply Ha, list_elem_of_here.
  - injection Heq as -> Heq. f_equal.
    apply not_elem_of_cons in Ha as [_ Ha], Hb as [_ Hb]. by apply IH.
Qed.

Lemma placeholder_prefix key k rest :
  bracket_free key → bracket_free k →
  is_prefix (placeholder key) (placeholder k ++ rest) = true → k = key.
Proof.
  intros [_ Hkey] [_ Hk] [r Heq]%is_prefix_spec.
  unfold placeholder in Heq. simpl in Heq. injection Heq as Heq.
  rewrite <- !app_assoc in Heq. simpl in Heq.
  by apply name_until_bracket in Heq.
Qed.

Lemma placeholder_head key c (r : pystr) :
  c ≠ LBRACKET → is_prefix (placeholder key) (c :: r) = false.
Proof.
  intros Hc. unfold placeholder. cbn [is_prefix].
  destruct (N.eqb_spec LBRACKET c); [congruence | done].
Qed.

Lemma replace_from_literal key new (pre s : pystr) :
  LBRACKET ∉ pre →
  replace_from (placeholder key) new 0 (pre ++ s)
  = pre ++ replace_from (placeholder key) new 0 s.
Proof.
  induction pre as [|c pre IH]; [done|].
  intros [Hc Hpre]%not_elem_of_cons. simpl app.
  rewrite replace_from_pass by by apply placeholder_head.
  by rewrite IH.
Qed.

(** One [replace] on a text in pieces. *)
Lemma replace_from_pieces key new ps :
  bracket_free key → Forall piece_ok ps →
  replace_from (placeholder key) new 0 (render ps) = render (ps ≫= subst_one key new).
Proof.
  intros Hkey. induction 1 as [|p ps Hp _ IH]; [done|].
  change (render (p :: ps)) with (render_piece p ++ render ps).
  change ((p :: ps) ≫= subst_one key new)
    with (subst_one key new p ++ (ps ≫= subst_one key new)).
  rewrite render_app, <- IH. destruct p as [c|k]; simpl in Hp.
  - change (render (subst_one key new (Lit c))) with [c]. simpl app.
    by rewrite replace_from_pass by by apply placeholder_head.
  - cbn [subst_one render_piece]. destruct (decide (k = key)) as [->|Hne].
    + rewrite render_lits. by apply replace_from_match.
    + change (render [Hole k]) with (placeholder k ++ []). rewrite app_nil_r.
      assert (is_prefix (placeholder key) (placeholder k ++ render ps) = false) as Hpre.
      { apply not_true_is_false. intros Hpre. apply Hne.
        by apply (placeholder_prefix key k (render ps)). }
      change (placeholder k) with (LBRACKET :: k ++ [RBRACKET]) in *.
      rewrite <- !app_comm_cons in *. rewrite replace_from_pass by done.
      f_equal. rewrite <- !app_assoc. rewrite replace_from_literal by apply Hp.
      f_equal.
Qed.

Lemma subst_one_ok key new ps :
  LBRACKET ∉ new → Forall piece_ok ps → Forall piece_ok (ps ≫= subst_one key new).
Proof.
  intros Hnew. induction 1 as [|p ps Hp _ IH]; [constructor|].
  change (Forall piece_ok (subst_one key new p ++ (ps ≫= subst_one key new))).
  apply Forall_app. split; [|done].
  destruct p as [c|k]; cbn [subst_one]; [by apply Forall_singleton|].
  case_decide; [|by apply Forall_singleton].
  apply Forall_fmap, Forall_forall. intros c Hc Heq. simpl in Heq. by subst c.
Qed.

Lemma subst_one_then kv key (v : V) ps :
  (ps ≫= subst_one key (py_str v)) ≫= subst_piece py_str kv
  = ps ≫= subst_piece py_str ((key, v) :: kv).
Proof.
  induction ps as [|p ps IH]; [done|].
  change (((subst_one key (py_str v) p ++ (ps ≫= subst_one key (py_str v)))
             ≫= subst_piece py_str kv)
          = subst_piece py_str ((key, v) :: kv) p ++ (ps ≫= subst_piece py_str ((key, v) :: kv))).
  rewrite bind_app, IH. f_equal.
  destruct p as [c|k]; [done|]. cbn [subst_one subst_piece dict_get].
  destruct (decide (k = key)) as [->|Hne].
  - rewrite decide_True by done. generalize (py_str v). intros t.
    induction t as [|c t IHt]; [done|].
    change ((Lit <$> (c :: t)) ≫= subst_piece py_str kv)
      with (Lit c :: ((Lit <$> t) ≫= subst_piece py_str kv)).
    by rewrite IHt.
  - rewrite decide_False by congruence. simpl. by rewrite app_nil_r.
Qed.

Lemma subst_nil ps : subst py_str [] ps = ps.
Proof.
  unfold subst. induction ps as [|p ps IH]; [done|].
  change ((p :: ps) ≫= subst_piece py_str [])
    with (subst_piece py_str [] p ++ (ps ≫= subst_piece py_str [])).
  rewrite IH. by destruct p.
Qed.

(** The whole loop on a text in pieces. *)
Lemma fill_text_pieces kv : ∀ ps,
  keys_ok kv → values_ok py_str kv → Forall piece_ok ps →
  fill_text py_str kv (render ps) = render (subst py_str kv ps).
Proof.
  induction kv as [|[key v] kv IH]; intros ps Hkeys Hvals Hps;
    [by rewrite subst_nil|].
  unfold keys_ok, values_ok, keys, fill_text, subst in *.
  - rewrite fmap_cons in Hkeys. apply Forall_cons in Hkeys as [Hkey Hkeys].
    apply Forall_cons in Hvals as [Hv Hvals]. cbn [foldl].
    rewrite fill_step_replace, replace_from_pieces by done.
    rewrite IH; [|done|done|by apply subst_one_ok].
    by rewrite subst_one_then.
Qed.

(** A text with no placeholder of the map goes through unchanged. *)
Lemma fill_text_absent kv : ∀ text,
  Forall (fun k => contains (placeholder k) text = false) (keys kv) →
  fill_text py_str kv text = text.
Proof.
  unfold keys, fill_text. induction kv as [|[key v] kv IH]; intros text; [done|].
  rewrite fmap_cons. intros [Hk Hr]%Forall_cons. cbn [foldl fill_step].
  simpl in Hk. rewrite Hk. by apply IH.
Qed.
End FillFacts.

(** ** The filler on a document *)

Lemma fill_template_paragraph {V} (py_str : V → pystr) doc kv (i : nat) :
  paragraphs (fill_template py_str doc kv) !! i
  = fill_text py_str kv <$> paragraphs doc !! i.
Proof. apply list_lookup_fmap. Qed.

Lemma fill_template_cell {V} (py_str : V → pystr) doc kv (t r c : nat) :
  cell_at (fill_template py_str doc kv) t r c
  = fill_text py_str kv <$> cell_at doc t r c.
Proof.
  unfold cell_at, fill_template. cbn [tables].
  rewrite list_lookup_fmap. destruct (tables doc !! t) as [table|]; [|done].
  cbn. rewrite list_lookup_fmap. destruct (table !! r) as [row|]; [|done].
  cbn. apply list_lookup_fmap.
Qed.

Lemma fill_template_shape {V} (py_str : V → pystr) doc kv :
  shape (fill_template py_str doc kv) = shape doc.
Proof.
  unfold shape, fill_template. cbn [paragraphs tables].
  rewrite length_fmap. f_equal.
  rewrite <- list_fmap_compose. apply list_fmap_ext. intros _ table _. cbn.
  rewrite <- list_fmap_compose. apply list_fmap_ext. intros _ row _. cbn.
  apply length_fmap.
Qed.

Ltac pieces_ok :=
  repeat first
    [ apply Forall_nil_2
    | apply Forall_cons_2;
      [ first [ discriminate
              | split; apply (bool_decide_unpack _); vm_compute; exact I ] | ] ].




(** C9: for every template and map, the filled document has as many
    paragraphs and tables as the template and, table by table and row by
    row, as many rows and cells; and a paragraph or a cell whose text
    holds no placeholder of a key of the map keeps its text. *)
Theorem fill_template_frame {V} (py_str : V → pystr)
    (doc : document) (kv : list (pystr * V)) :
  shape (fill_template py_str doc kv) = shape doc
  ∧ length (tables (fill_template py_str doc kv)) = length (tables doc)
  ∧ (∀ (i : nat) text,
       paragraphs doc !! i = Some text →
       Forall (fun k => contains (placeholder k) text = false) (keys kv) →
       paragraphs (fill_template py_str doc kv) !! i = Some text)
  ∧ (∀ (t r c : nat) text,
       cell_at doc t r c = Some text →
       Forall (fun k => contains (placeholder k) text = false) (keys kv) →
       cell_at (fill_template py_str doc kv) t r c = Some text).
Proof.
  split; [apply fill_template_shape|].
  split; [apply length_fmap|].
  split.
  - intros i text Hi Hno. rewrite fill_template_paragraph, Hi. cbn.
    by rewrite fill_text_absent.
  - intros t r c text Hc Hno. rewrite fill_template_cell, Hc. cbn.
    by rewrite fill_text_absent.
Qed.

Lemma fill_template_frame_witness :
  let kv := [(py "NAME", py "Acme")] in
  let doc := {| paragraphs := [py "Report for [NAME]"; py "No field here, see [OTHER]"];
                tables := [[[py "Insured"; py "[NAME]"]]] |} in
  shape (fill_template id doc kv) = (2%nat, [[2%nat]])
  ∧ paragraphs (fill_template id doc kv) !! 1%nat = Some (py "No field here, see [OTHER]")
  ∧ cell_at (fill_template id doc kv) 0 0 0 = Some (py "Insured").
Proof.
  intros kv doc.
  destruct (fill_template_frame id doc kv) as (Hshape & _ & Hp & Hc).
  split; [exact Hshape|]. split.
  - apply (Hp 1%nat); [reflexivity|]. apply Forall_singleton. vm_compute. reflexivity.
  - apply (Hc 0%nat 0%nat 0%nat); [reflexivity|]. apply Forall_singleton. vm_compute. reflexivity.
Defined.

(** ** A text filled twice *)

Section FillAgain.
Context {V : Type} (py_str : V → pystr).
Implicit Types (kv : list (pystr * V)) (ps : list piece).

Lemma subst_lits kv (t : pystr) : subst py_str kv (Lit <$> t) = Lit <$> t.
Proof.
  unfold subst. induction t as [|c t IH]; [done|].
  change ((Lit <$> (c :: t)) ≫= subst_piece py_str kv)
    with (Lit c :: ((Lit <$> t) ≫= subst_piece py_str kv)).
  by rewrite IH.
Qed.

Lemma subst_pieces_ok kv ps :
  values_ok py_str kv → Forall piece_ok ps → Forall piece_ok (subst py_str kv ps).
Proof.
  unfold values_ok, subst. intros Hvals. induction 1 as [|p ps Hp _ IH]; [constructor|].
  change (Forall piece_ok (subst_piece py_str kv p ++ (ps ≫= subst_piece py_str kv))).
  apply Forall_app. split; [|done].
  destruct p as [c|k]; cbn [subst_piece]; [by apply Forall_singleton|].
  destruct (dict_get k kv) as [v|] eqn:Hget; [|by apply Forall_singleton].
  apply dict_get_Some_elem in Hget. rewrite Forall_forall in Hvals.
  specialize (Hvals _ Hget). cbn in Hvals.
  apply Forall_fmap, Forall_forall. intros c Hc Heq. cbn in Heq. by subst c.
Qed.

Lemma subst_again kv ps : subst py_str kv (subst py_str kv ps) = subst py_str kv ps.
Proof.
  unfold subst. induction ps as [|p ps IH]; [done|].
  change ((p :: ps) ≫= subst_piece py_str kv)
    with (subst_piece py_str kv p ++ (ps ≫= subst_piece py_str kv)).
  rewrite bind_app, IH. f_equal.
  destruct p as [c|k]; [done|]. cbn [subst_piece].
  destruct (dict_get k kv) as [v|] eqn:Hget.
  - apply subst_lits.
  - change ([Hole k] ≫= subst_piece py_str kv)
      with (subst_piece py_str kv (Hole k) ++ []).
    cbn [subst_piece]. by rewrite Hget.
Qed.

(** A cell that spans several columns comes once per column in
    [row.cells]; on a text as in [fill_text_pieces] the second visit
    finds nothing left to replace. *)
Lemma fill_text_again kv ps :
  keys_ok kv → values_ok py_str kv → Forall piece_ok ps →
  fill_text py_str kv (fill_text py_str kv (render ps)) = fill_text py_str kv (render ps).
Proof.
  intros Hkeys Hvals Hps.
  rewrite (fill_text_pieces py_str kv ps) by done.
  rewrite (fill_text_pieces py_str kv (subst py_str kv ps)) by auto using subst_pieces_ok.
  by rewrite subst_again.
Qed.
End FillAgain.

(** ** The decoder and its fuel *)

Lemma skip_ws_length s : (length (skip_ws s) ≤ length s)%nat.
Proof.
  induction s as [|c r IH]; [done|]. cbn [skip_ws].
  destruct (is_json_ws c); cbn [length]; lia.
Qed.

Lemma span_digits_length s ds rest :
  span_digits s = (ds, rest) → (length rest ≤ length s)%nat.
Proof.
  revert ds rest. induction s as [|c r IH]; intros ds rest; cbn [span_digits].
  - by intros [= <- <-].
  - destruct (is_digit c).
    + destruct (span_digits r) as [ds' rest'] eqn:Hr. intros [= <- <-].
      specialize (IH _ _ eq_refl). cbn [length]. lia.
    + by intros [= <- <-].
Qed.

Lemma span_frac_length s frac rest :
  span_frac s = (frac, rest) → (length rest ≤ length s)%nat.
Proof.
  unfold span_frac. destruct s as [|dot r]; [by intros [= <- <-]|].
  destruct (dot =? 46); [|by intros [= <- <-]].
  destruct (span_digits r) as [[|d ds] rest'] eqn:Hr; intros [= <- <-]; [done|].
  apply span_digits_length in Hr. cbn [length]. lia.
Qed.

Lemma span_exp_length s e rest :
  span_exp s = (e, rest) → (length rest ≤ length s)%nat.
Proof.
  unfold span_exp. destruct s as [|c r]; [by intros [= <- <-]|].
  destruct ((c =? 101) || (c =? 69)); [|by intros [= <- <-]].
  assert (∀ sign r1 (Hr1 : (length r1 ≤ length r)%nat),
            match span_digits r1 with
            | (d :: ds, rest0) => (c :: sign ++ d :: ds, rest0)
            | _ => ([], c :: r)
            end = (e, rest) → (length rest ≤ length (c :: r))%nat) as Hgen.
  { intros sign r1 Hr1. destruct (span_digits r1) as [[|d ds] rest'] eqn:Hd;
      intros [= <- <-]; [done|].
    apply span_digits_length in Hd. cbn [length]. lia. }
  destruct r as [|g r'].
  - intros H. by apply (Hgen [] []).
  - destruct ((g =? 45) || (g =? 43)); intros H.
    + apply (Hgen [g] r'); [cbn [length]; lia | exact H].
    + apply (Hgen [] (g :: r')); [done | exact H].
Qed.

Lemma scan_number_length s v rest :
  scan_number s = Some (v, rest) → (length rest ≤ length s)%nat.
Proof.
  unfold scan_number.
  assert (∀ sign s1 (Hs1 : (length s1 ≤ length s)%nat),
            match s1 with
            | [] => None
            | d :: r =>
                if is_digit d
                then let '(ds, r1) := if d =? 48 then ([], r) else span_digits r in
                     let '(frac, r2) := span_frac r1 in
                     let '(exp, r3) := span_exp r2 in
                     match frac, exp with
                     | [], [] =>
                         Some (JInt (match sign with
                                     | [] => decimal (d :: ds)
                                     | _ :: _ => - decimal (d :: ds)
                                     end), r3)
                     | _, _ => Some (JFloat (sign ++ d :: ds ++ frac ++ exp), r3)
                     end
                else None
            end = Some (v, rest) → (length rest ≤ length s)%nat) as Hgen.
  { intros sign [|d r] Hs1; [done|]. destruct (is_digit d); [|done].
    destruct (if d =? 48 then ([], r) else span_digits r) as [ds r1] eqn:H1.
    destruct (span_frac r1) as [frac r2] eqn:H2.
    destruct (span_exp r2) as [e r3] eqn:H3.
    assert (length r1 ≤ length r)%nat.
    { destruct (d =? 48); [by injection H1 as <- <- | by eapply span_digits_length]. }
    apply span_frac_length in H2. apply span_exp_length in H3. cbn [length] in Hs1.
    destruct frac, e; intros [= <- <-]; lia. }
  destruct s as [|c r].
  - intros H. by apply (Hgen [] []).
  - destruct (c =? 45); intros H.
    + apply (Hgen [c] r); [cbn [length]; lia | exact H].
    + apply (Hgen [] (c :: r)); [done | exact H].
Qed.

Lemma after_literal_length lit s rest :
  after_literal lit s = Some rest → (length rest ≤ length s)%nat.
Proof.
  unfold after_literal. destruct (is_prefix _ _); [|done].
  intros [= <-]. rewrite length_drop. lia.
Qed.

Lemma scan_string_length n : ∀ s t rest,
  (length s ≤ n)%nat → scan_string s = Some (t, rest) → (length rest < length s)%nat.
Proof.
  induction n as [|n IH]; intros [|c r] t rest Hn; try done; [cbn in Hn; lia|].
  cbn [length] in Hn.
  assert (∀ x ch, (length x ≤ n)%nat →
            ('(t', rest') ← scan_string x; Some (ch :: t', rest')) = Some (t, rest) →
            (length rest < length x)%nat) as Hstep.
  { intros x ch Hx ([t' rest'] & Hs & [= <- <-])%bind_Some. by eapply IH. }
  cbn [scan_string].
  repeat match goal with
         | |- context [match ?x with _ => _ end] => destruct x eqn:?
         end;
    try done; try (intros [= <- <-]; cbn [length]; lia);
    intros H; apply Hstep in H; cbn [length] in *; lia.
Qed.

Lemma scan_string_shrinks : shrinks scan_string.
Proof.
  intros x t rest H. apply (scan_string_length (length x)) in H; [lia | done].
Qed.

Lemma value_at_shrinks members elements :
  shrinks members → shrinks elements → shrinks (value_at members elements).
Proof.
  intros Hm He [|c r] v rest; [done|]. unfold value_at.
  pose proof (skip_ws_length r) as Hws.
  destruct (c =? QUOTE).
  { intros ([t rest'] & Hs%scan_string_shrinks & [= <- <-])%bind_Some. cbn [length]. lia. }
  destruct (c =? LBRACE).
  { destruct (skip_ws r) as [|d r1]; [done|]. cbn [length] in Hws.
    destruct (d =? RBRACE); [intros [= <- <-]; cbn [length]; lia|].
    intros ([pairs rest'] & Hs%Hm & [= <- <-])%bind_Some. cbn [length] in *. lia. }
  destruct (c =? LBRACKET).
  { destruct (skip_ws r) as [|d r1]; [done|]. cbn [length] in Hws.
    destruct (d =? RBRACKET); [intros [= <- <-]; cbn [length]; lia|].
    intros ([items rest'] & Hs%He & [= <- <-])%bind_Some. cbn [length] in *. lia. }
  repeat match goal with
         | |- context [match after_literal ?lit ?x with _ => _ end] =>
             destruct (after_literal lit x) eqn:?;
             [intros [= <- <-]; by eapply after_literal_length|]
         end.
  apply scan_number_length.
Qed.

Lemma members_at_shrinks value members :
  shrinks value → shrinks members → shrinks (members_at value members).
Proof.
  intros Hv Hm [|c r] pairs rest; [done|]. unfold members_at.
  destruct (c =? QUOTE); [|done].
  intros ([key r1] & Hs%scan_string_shrinks & H)%bind_Some.
  pose proof (skip_ws_length r1) as Hws1.
  destruct (skip_ws r1) as [|colon r2]; [done|]. cbn [length] in Hws1.
  destruct (colon =? 58); [|done].
  apply bind_Some in H as ([v r3] & Hval%Hv & H).
  pose proof (skip_ws_length r2) as Hws2. pose proof (skip_ws_length r3) as Hws3.
  destruct (skip_ws r3) as [|d r4]; [done|]. cbn [length] in Hws3.
  destruct (d =? RBRACE); [injection H as <- <-; cbn [length]; lia|].
  destruct (d =? COMMA); [|done].
  apply bind_Some in H as ([pairs' rest'] & Hrec%Hm & [= <- <-]).
  pose proof (skip_ws_length r4). cbn [length]. lia.
Qed.

Lemma elements_at_shrinks value elements :
  shrinks value → shrinks elements → shrinks (elements_at value elements).
Proof.
  intros Hv He s items rest. unfold elements_at.
  intros ([v r1] & Hval%Hv & H)%bind_Some.
  pose proof (skip_ws_length r1) as Hws1.
  destruct (skip_ws r1) as [|d r2]; [done|]. cbn [length] in Hws1.
  destruct (d =? RBRACKET); [injection H as <- <-; lia|].
  destruct (d =? COMMA); [|done].
  apply bind_Some in H as ([items' rest'] & Hrec%He & [= <- <-]).
  pose proof (skip_ws_length r2). lia.
Qed.

Lemma parse_shrinks fuel :
  shrinks (parse_value fuel) ∧ shrinks (parse_members fuel) ∧ shrinks (parse_elements fuel).
Proof.
  induction fuel as [|fuel (Hv & Hm & He)]; [by repeat split|].
  repeat split; cbn [parse_value parse_members parse_elements].
  - by apply value_at_shrinks.
  - by apply members_at_shrinks.
  - by apply elements_at_shrinks.
Qed.

(** Each reader looks at the readers below it on shorter texts only,
    but for the first value of an array. *)
Lemma value_at_agree members members' elements elements' s :
  (∀ x, (length x < length s)%nat → members x = members' x) →
  (∀ x, (length x < length s)%nat → elements x = elements' x) →
  value_at members elements s = value_at members' elements' s.
Proof.
  intros Hm He. destruct s as [|c r]; [done|]. unfold value_at.
  pose proof (skip_ws_length r) as Hws.
  destruct (skip_ws r) as [|d r1]; [done|]. cbn [length] in Hws.
  rewrite Hm, He by (cbn [length]; lia). done.
Qed.

Lemma members_at_agree value value' members members' s :
  shrinks value →
  (∀ x, (length x < length s)%nat → value x = value' x) →
  (∀ x, (length x < length s)%nat → members x = members' x) →
  members_at value members s = members_at value' members' s.
Proof.
  intros Hsh Hv Hm. destruct s as [|c r]; [done|]. unfold members_at.
  destruct (c =? QUOTE); [|done].
  destruct (scan_string r) as [[key r1]|] eqn:Hs; [|done]. cbn.
  apply scan_string_shrinks in Hs.
  pose proof (skip_ws_length r1) as Hws1.
  destruct (skip_ws r1) as [|colon r2]; [done|]. cbn [length] in Hws1.
  destruct (colon =? 58); [|done].
  pose proof (skip_ws_length r2) as Hws2.
  rewrite <- Hv by (cbn [length]; lia).
  destruct (value (skip_ws r2)) as [[v r3]|] eqn:Hval; [|done]. cbn.
  apply Hsh in Hval.
  pose proof (skip_ws_length r3) as Hws3.
  destruct (skip_ws r3) as [|d r4]; [done|]. cbn [length] in Hws3.
  pose proof (skip_ws_length r4) as Hws4.
  rewrite Hm by (cbn [length]; lia). done.
Qed.

Lemma elements_at_agree value value' elements elements' s :
  shrinks value →
  value s = value' s →
  (∀ x, (length x < length s)%nat → elements x = elements' x) →
  elements_at value elements s = elements_at value' elements' s.
Proof.
  intros Hsh Hv He. unfold elements_at. rewrite <- Hv.
  destruct (value s) as [[v r1]|] eqn:Hval; [|done]. cbn.
  apply Hsh in Hval.
  pose proof (skip_ws_length r1) as Hws1.
  destruct (skip_ws r1) as [|d r2]; [done|]. cbn [length] in Hws1.
  pose proof (skip_ws_length r2) as Hws2.
  rewrite He by lia. done.
Qed.

(** Beyond twice the length of the text, fuel changes nothing. *)
Lemma parse_fuel fuel : ∀ fuel' s,
  ((2 * length s < fuel)%nat → (2 * length s < fuel')%nat →
   parse_value fuel s = parse_value fuel' s)
  ∧ ((2 * length s + 1 < fuel)%nat → (2 * length s + 1 < fuel')%nat →
     parse_members fuel s = parse_members fuel' s)
  ∧ ((2 * length s + 1 < fuel)%nat → (2 * length s + 1 < fuel')%nat →
     parse_elements fuel s = parse_elements fuel' s).
Proof.
  induction fuel as [|fuel IH]; intros [|fuel'] s; try (repeat split; intros; lia).
  destruct (parse_shrinks fuel) as (Hshv & _ & _).
  repeat split; intros Hf Hf'; cbn [parse_value parse_members parse_elements].
  - apply value_at_agree; intros x Hx; destruct (IH fuel' x) as (_ & IHm & IHe);
      [apply IHm | apply IHe]; lia.
  - apply members_at_agree; [done| |]; intros x Hx; destruct (IH fuel' x) as (IHv & IHm & _);
      [apply IHv | apply IHm]; lia.
  - apply elements_at_agree; [done| |].
    + destruct (IH fuel' s) as (IHv & _). apply IHv; lia.
    + intros x Hx. destruct (IH fuel' x) as (_ & _ & IHe). apply IHe; lia.
Qed.

(** [json.loads] fails on a text only when the text does not decode:
    more fuel gives the same answer. *)
Lemma decode_fuel s fuel :
  (2 * length s < fuel)%nat → decode fuel s = json_loads s.
Proof.
  intros Hf. unfold json_loads, decode.
  pose proof (skip_ws_length s) as Hws.
  destruct (parse_fuel fuel (S (2 * length s)) (skip_ws s)) as [Hv _].
  by rewrite Hv by lia.
Qed.

(** ** The reading of a reply *)

Lemma parse_reply_returns content d :
  parse_reply content = Return d →
  ∃ json_str data,
    search_json_block content = Some json_str
    ∧ json_loads (sanitize json_str) = Some (JObj data)
    ∧ d = null_to_empty data.
Proof.
  unfold parse_reply. destruct (search_json_block content) as [json_str|]; [|done].
  destruct (json_loads (sanitize json_str)) as [[]|] eqn:Hd; try done.
  intros [= <-]. by exists json_str, kvs.
Qed.

Lemma null_to_empty_keys data : keys (null_to_empty data) = keys data.
Proof.
  unfold keys, null_to_empty. rewrite <- list_fmap_compose.
  by apply list_fmap_ext.
Qed.

Lemma null_to_empty_get data k :
  dict_get k (null_to_empty data)
  = null_as_empty <$> dict_get k data.
Proof.
  unfold null_to_empty. induction data as [|[k' v'] r IH]; [done|].
  rewrite fmap_cons. cbn [dict_get fst snd].
  destruct (decide (k' = k)); [reflexivity | apply IH].
Qed.

Lemma null_to_empty_no_null data : Forall (fun kv => kv.2 ≠ JNull) (null_to_empty data).
Proof.
  unfold null_to_empty. apply Forall_fmap, Forall_forall.
  intros [k v] _. cbn. by destruct v.
Qed.

(** C4, as the code has it: when the reading of a reply succeeds, the
    map returned has the keys of the decoded object, in its order; a
    null value has become the empty string and every other value is the
    decoded value itself, string or not; no value is null. *)
Theorem parse_reply_values (content : pystr) (d : list (pystr * json)) :
  parse_reply content = Return d →
  ∃ json_str data,
    search_json_block content = Some json_str
    ∧ json_loads (sanitize json_str) = Some (JObj data)
    ∧ keys d = keys data
    ∧ (∀ k, dict_get k d = null_as_empty <$> dict_get k data)
    ∧ Forall (fun kv => kv.2 ≠ JNull) d.
Proof.
  intros (json_str & data & Hs & Hd & ->)%parse_reply_returns.
  exists json_str, data. repeat split; try done.
  - apply null_to_empty_keys.
  - apply null_to_empty_get.
  - apply null_to_empty_no_null.
Qed.

(** The reply of the specification: the comma before the closing brace
    goes, the block decodes, and B keeps the number 5. *)
Lemma parse_reply_values_witness :
  ∃ json_str data,
    search_json_block sample_reply = Some json_str
    ∧ json_loads (sanitize json_str) = Some (JObj data)
    ∧ keys [(py "A", JStr (py "foo")); (py "B", JInt 5)] = keys data
    ∧ (∀ k, dict_get k [(py "A", JStr (py "foo")); (py "B", JInt 5)]
            = null_as_empty <$> dict_get k data)
    ∧ Forall (fun kv => kv.2 ≠ JNull) [(py "A", JStr (py "foo")); (py "B", JInt 5)].
Proof.
  apply (parse_reply_values sample_reply). vm_compute. reflexivity.
Defined.

(** C4 as stated fails: for the reply of the specification the repaired
    block is {"A": "foo", "B": 5} and the map returned binds B to the
    number 5, not to the string "5". *)
Lemma parse_reply_keeps_number :
  (sanitize <$> search_json_block sample_reply)
    = Some (py "{" ++ q "A" ++ py ": " ++ q "foo" ++ py ", " ++ q "B" ++ py ": 5}")
  ∧ parse_reply sample_reply = Return [(py "A", JStr (py "foo")); (py "B", JInt 5)]
  ∧ parse_reply sample_reply ≠ Return [(py "A", JStr (py "foo")); (py "B", JStr (py "5"))]
  ∧ ¬ Forall (fun kv => is_str kv.2) [(py "A", JStr (py "foo")); (py "B", JInt 5)].
Proof.
  split; [vm_compute; reflexivity|]. split; [vm_compute; reflexivity|]. split.
  - vm_compute. discriminate.
  - intros H. apply Forall_cons in H as [_ H]. apply Forall_cons in H as [H _]. exact H.
Qed.

Lemma strip_comments_none s :
  contains [SLASH; SLASH] s = false → strip_comments false s = s.
Proof.
  induction s as [|c r IH]; [done|]. cbn [contains is_prefix].
  intros [Hp Hr]%orb_false_iff. cbn [strip_comments].
  destruct r as [|d r']; [done|]. rewrite IH by done.
  cbn [is_prefix] in Hp. rewrite andb_true_r in Hp.
  rewrite (N.eqb_sym c SLASH), (N.eqb_sym d SLASH). by rewrite Hp.
Qed.

Lemma strip_trailing_commas_none s :
  has_trailing_comma s = false → strip_trailing_commas false s = s.
Proof.
  induction s as [|c r IH]; [done|]. cbn [has_trailing_comma].
  intros [Hc Hr]%orb_false_iff. cbn [strip_trailing_commas].
  by rewrite Hc, IH.
Qed.

(** A block with no two slashes in a row and no comma before a closing
    brace or bracket goes through the repair unchanged. *)
Lemma sanitize_none (json_str : pystr) :
  contains [SLASH; SLASH] json_str = false →
  has_trailing_comma json_str = false →
  sanitize json_str = json_str.
Proof.
  intros Hc Ht. unfold sanitize. by rewrite strip_comments_none, strip_trailing_commas_none.
Qed.

(** C8, where the code departs from it: a block that is valid JSON and
    holds two slashes inside a string loses the rest of its line in the
    repair and no longer decodes; one that holds a comma and a closing
    bracket inside a string decodes to another value. *)
Theorem sanitize_alters_valid_json :
  (let block := py "{" ++ q "URL" ++ py ": " ++ q "http://x.org" ++ py "}" in
   search_json_block block = Some block
   ∧ json_loads block = Some (JObj [(py "URL", JStr (py "http://x.org"))])
   ∧ sanitize block = py "{" ++ q "URL" ++ py ": " ++ [QUOTE] ++ py "http:"
   ∧ json_loads (sanitize block) = None
   ∧ parse_reply block = Raise JSONDecodeError)
  ∧ (let block := py "{" ++ q "NOTE" ++ py ": " ++ q "see [a, b,]" ++ py "}" in
     search_json_block block = Some block
     ∧ json_loads block = Some (JObj [(py "NOTE", JStr (py "see [a, b,]"))])
     ∧ parse_reply block = Return [(py "NOTE", JStr (py "see [a, b]"))]).
Proof.
  split; cbv zeta; repeat split; vm_compute; reflexivity.
Qed.

(** A block in which JSON null stands at the top and inside a list: only
    the first becomes the empty string. *)
Example parse_reply_null :
  parse_reply (py "{" ++ q "A" ++ py ": null, " ++ q "B" ++ py ": [null]}")
  = Return [(py "A", JStr []); (py "B", JArr [JNull])].
Proof. vm_compute. reflexivity. Qed.

(** ** What the reading of a reply can raise *)

Lemma search_json_block_head content block :
  search_json_block content = Some block → ∃ r, block = LBRACE :: r.
Proof.
  induction content as [|c r IH]; [done|]. cbn [search_json_block].
  destruct (N.eqb_spec c LBRACE) as [->|]; [|done].
  destruct (upto_last RBRACE r) as [t|]; [|done].
  intros [= <-]. by exists t.
Qed.

Lemma sanitize_head r : ∃ r', sanitize (LBRACE :: r) = LBRACE :: r'.
Proof.
  unfold sanitize.
  assert (∃ r1, strip_comments false (LBRACE :: r) = LBRACE :: r1) as [r1 ->].
  { destruct r as [|d r]; [by exists []|]. cbn [strip_comments].
    change (LBRACE =? SLASH) with false. cbn [andb]. by eexists. }
  cbn [strip_trailing_commas]. change (LBRACE =? COMMA) with false. cbn [andb].
  by eexists.
Qed.



(** ** The repeated call *)

Section RetryFacts.
Context {A : Type} (wait : nat → N) (retry : exn → bool) (fn : nat → outcome A).

Lemma retrying_spec remaining : ∀ n slept,
  let c := retrying wait retry fn remaining n slept in
  (n ≤ attempts c ≤ n + remaining)%nat
  ∧ sleeps c = slept ++ (wait <$> seq n (attempts c - n))
  ∧ (∀ m, (n ≤ m < attempts c)%nat → ∃ e, fn m = Raise e ∧ retry e = true)
  ∧ ((result c = fn (attempts c) ∧ ∀ e, fn (attempts c) = Raise e → retry e = false)
     ∨ (attempts c = (n + remaining)%nat ∧ result c = Raise RetryError
        ∧ ∃ e, fn (attempts c) = Raise e ∧ retry e = true)).
Proof.
  induction remaining as [|k IH]; intros n slept; cbn [retrying].
  - destruct (fn n) as [a|e] eqn:Hfn; [|destruct (retry e) eqn:Hre]; cbn.
    + rewrite Nat.sub_diag, app_nil_r. repeat split; try lia.
      left. rewrite Hfn. split; [done | intros ? [=]].
    + rewrite Nat.sub_diag, app_nil_r. repeat split; try lia.
      right. repeat split; [lia|]. by exists e.
    + rewrite Nat.sub_diag, app_nil_r. repeat split; try lia.
      left. rewrite Hfn. split; [done | by intros ? [= <-]].
  - destruct (fn n) as [a|e] eqn:Hfn; [|destruct (retry e) eqn:Hre]; cbn.
    + rewrite Nat.sub_diag, app_nil_r. repeat split; try lia.
      left. rewrite Hfn. split; [done | intros ? [=]].
    + specialize (IH (S n) (slept ++ [wait n])).
      destruct IH as ([Hlo Hhi] & Hsl & Hbefore & Hend).
      set (c := retrying wait retry fn k (S n) (slept ++ [wait n])) in *.
      split; [lia|]. split; [|split].
      * rewrite Hsl, <- app_assoc. f_equal.
        replace (attempts c - n)%nat with (S (attempts c - S n)) by lia. done.
      * intros m Hm. destruct (decide (m = n)) as [->|Hne]; [by exists e|].
        apply Hbefore. lia.
      * destruct Hend as [?|(Hat & ? & ?)]; [by left|]. right.
        split; [lia | done].
    + rewrite Nat.sub_diag, app_nil_r. repeat split; try lia.
      left. rewrite Hfn. split; [done | by intros ? [= <-]].
Qed.
End RetryFacts.


Lemma retry_transport e :
  retry_if_exception_type [HTTPError; ConnectionError] e = true
  ↔ e = HTTPError ∨ e = ConnectionError.
Proof.
  destruct e; (split; [intros H; vm_compute in H; try discriminate H; auto
                      | intros [H|H]; try discriminate H; reflexivity]).
Qed.




(** ** The maps of a run *)

Lemma get_extracted_data_returns remote sent text fields kv :
  result (get_extracted_data remote sent text fields) = Return kv →
  ∃ content, parse_reply content = Return kv.
Proof.
  unfold get_extracted_data, with_retry.
  match goal with
  | |- context [retrying ?w ?r ?f ?k ?n ?sl] =>
      destruct (retrying_spec w r f k n sl) as (_ & _ & _ & Hend);
      set (c := retrying w r f k n sl) in *
  end.
  intros Hres. destruct Hend as [[Hfn _]|(_ & Hre & _)]; [|congruence].
  rewrite Hres in Hfn. symmetry in Hfn. unfold extract_once in Hfn.
  destruct (remote _ _) as [e|content]; [done|]. by exists content.
Qed.

Lemma process_reports_returns remote fields pdf_files : ∀ sent acc kvs,
  process_reports remote fields pdf_files sent acc = Return kvs →
  ∃ new, kvs = acc ++ new
         ∧ Forall (fun kv => ∃ content, parse_reply content = Return kv) new.
Proof.
  induction pdf_files as [|pdf rest IH]; intros sent acc kvs; cbn [process_reports].
  - intros [= <-]. exists []. by rewrite app_nil_r.
  - destruct (extract_text_from_pdf pdf) as [|c t]; [apply IH|].
    destruct (result _) as [kv|e] eqn:Hres; [|done].
    intros (new & -> & Hnew)%IH. exists (kv :: new).
    rewrite <- app_assoc. split; [done|]. constructor; [|done].
    by eapply get_extracted_data_returns.
Qed.





(** * Further properties of the code *)

(** ** Reports and their texts *)

(** X1: the text of a document is the text of its first pages followed
    by the text of the rest, and it is empty exactly when no page yields
    text; a text that is not empty ends with a line feed. *)
Theorem extract_text_from_pdf_app :
  (∀ pages1 pages2,
     extract_text_from_pdf (pages1 ++ pages2)
     = extract_text_from_pdf pages1 ++ extract_text_from_pdf pages2)
  ∧ (∀ pages, extract_text_from_pdf pages = [] ↔ page_texts pages = [])
  ∧ (∀ pages, extract_text_from_pdf pages = []
              ∨ ∃ t, extract_text_from_pdf pages = t ++ [NL]).
Proof.
  unfold extract_text_from_pdf. split; [|split].
  - intros pages1 pages2. rewrite foldl_app.
    by rewrite (extract_pages_from pages2 (foldl _ _ _)), (extract_pages_from pages2 []).
  - intros pages. rewrite extract_pages_from. simpl.
    destruct (page_texts pages) as [|t ts] eqn:Hp; [done|].
    split; [|done]. cbn. destruct t; done.
  - intros pages. rewrite extract_pages_from, join_lines. simpl.
    destruct (page_texts pages); [by left | right; by eexists].
Qed.

Lemma process_reports_skip_here remote fields pdf rest sent acc :
  has_text pdf = false →
  process_reports remote fields (pdf :: rest) sent acc
  = process_reports remote fields rest sent acc.
Proof.
  unfold has_text. cbn [process_reports].
  by destruct (extract_text_from_pdf pdf).
Qed.

(** X2: a report whose pages yield no text sends no request and adds no
    map: the run is the run without it. *)
Theorem process_reports_skip remote fields (before after : list (list (option pystr)))
    (pdf : list (option pystr)) sent acc :
  has_text pdf = false →
  process_reports remote fields (before ++ pdf :: after) sent acc
  = process_reports remote fields (before ++ after) sent acc.
Proof.
  intros Hno. revert sent acc.
  induction before as [|p before IH]; intros sent acc.
  - by apply process_reports_skip_here.
  - cbn [app process_reports]. destruct (extract_text_from_pdf p); [apply IH|].
    destruct (result _); [apply IH | done].
Qed.

Lemma process_reports_skip_witness :
  process_reports sample_remote [py "A"] ([[Some (py "Claim 42")]] ++ [None; Some []] :: []) 0 []
  = process_reports sample_remote [py "A"] ([[Some (py "Claim 42")]] ++ []) 0 [].
Proof. apply process_reports_skip. reflexivity. Defined.

Lemma process_reports_length remote fields pdf_files : ∀ sent acc kvs,
  process_reports remote fields pdf_files sent acc = Return kvs →
  length kvs = (length acc + length (filter (fun pdf => has_text pdf = true) pdf_files))%nat.
Proof.
  induction pdf_files as [|pdf rest IH]; intros sent acc kvs.
  - intros [= <-]. simpl. lia.
  - cbn [process_reports]. rewrite filter_cons.
    destruct (extract_text_from_pdf pdf) as [|c t] eqn:Hx.
    + rewrite decide_False; [apply IH|]. unfold has_text. by rewrite Hx.
    + rewrite decide_True; [|unfold has_text; by rewrite Hx].
      destruct (result _) as [kv|e]; [|done].
      intros H%IH. rewrite H, length_app. simpl. lia.
Qed.

(** X3: a run that reaches the merge has one map for each report that
    has text, no more and no less. *)
Theorem process_reports_one_map_each remote fields
    (pdf_files : list (list (option pystr))) kvs :
  process_reports remote fields pdf_files 0 [] = Return kvs →
  length kvs = length (filter (fun pdf => has_text pdf = true) pdf_files).
Proof. intros H%process_reports_length. by rewrite H. Qed.

Lemma process_reports_one_map_each_witness :
  length [[(py "Z", JInt 5); (py "A", JStr [])]]
  = length (filter (fun pdf => has_text pdf = true)
                   [[None]; [Some (py "Claim 42, insured Acme")]; []]).
Proof.
  apply (process_reports_one_map_each sample_remote [py "A"]). vm_compute. reflexivity.
Defined.

(** ** More on the merge *)

(** X4: merging the reports in two stages gives the same map: the merge
    of the first reports, put before the remaining ones, merges to what
    all of them merge to. *)
Theorem combine_kv_stages (kvs1 kvs2 : list (list (pystr * json))) :
  combine_kv (kvs1 ++ kvs2) = combine_kv (combine_kv kvs1 :: kvs2).
Proof.
  unfold combine_kv at 1 2. rewrite foldl_app. cbn [foldl]. f_equal.
  symmetry. rewrite merge_items_fresh; [done|]. apply combine_kv_wf.
Qed.

(** X5: a key of the merged map is bound to the empty string exactly
    when every report that has the key has it empty. *)
Theorem combine_kv_empty_iff (kvs : list (list (pystr * json))) (k : pystr) :
  dict_get k (combine_kv kvs) = Some (JStr [])
  ↔ k ∈ keys (mjoin kvs) ∧ ∀ v, (k, v) ∈ mjoin kvs → v = JStr [].
Proof.
  rewrite combine_kv_get. unfold first_nonempty_wins, keys.
  destruct (List.find _ (mjoin kvs)) as [[k' v']|] eqn:Hfind.
  - apply find_some in Hfind as [Hin Hf]. apply andb_true_iff in Hf as [Hk Hne].
    apply bool_decide_eq_true in Hk. cbn in Hk, Hne. subst k'.
    apply list_elem_of_In in Hin. split.
    + intros [= ->]. done.
    + intros [_ Hall]. rewrite (Hall v' Hin) in Hne. done.
  - case_decide as Hk.
    + split; [|done]. intros _. split; [done|]. intros v Hin.
      pose proof (find_none _ _ Hfind _ (proj1 (list_elem_of_In _ _) Hin)) as Hf.
      cbn in Hf. rewrite bool_decide_eq_true_2 in Hf by done. cbn in Hf.
      by apply negb_false_iff, is_empty_str_true in Hf.
    + split; [done | by intros [? _]].
Qed.

(** ** More on the repeated call *)

(** X6: each wait between two runs lasts 4 time units: with three
    attempts the exponential term stays below the minimum. *)
Theorem get_extracted_data_sleeps remote sent text fields :
  sleeps (get_extracted_data remote sent text fields)
  = replicate (attempts (get_extracted_data remote sent text fields) - 1) 4.
Proof.
  unfold get_extracted_data, with_retry.
  match goal with
  | |- context [retrying ?w ?r ?f ?k ?n ?sl] =>
      destruct (retrying_spec w r f k n sl) as (Hn & Hsl & _);
      set (c := retrying w r f k n sl) in *
  end.
  rewrite Hsl. cbn [app].
  assert (attempts c = 1 ∨ attempts c = 2 ∨ attempts c = 3)%nat as [->|[->| ->]] by lia;
    reflexivity.
Qed.

(** X7: when the three requests of a call all fail with [HTTPError] or
    [ConnectionError], the call ends after the third with [RetryError],
    having waited twice. *)
Theorem get_extracted_data_exhausted remote sent text fields :
  (∀ n, (n < 3)%nat →
        remote (sent + n)%nat (build_prompt text fields) = Fails HTTPError
        ∨ remote (sent + n)%nat (build_prompt text fields) = Fails ConnectionError) →
  get_extracted_data remote sent text fields = Call (Raise RetryError) 3 [4; 4].
Proof.
  intros Hfail. unfold get_extracted_data, with_retry.
  cbn [retrying Nat.sub].
  destruct (Hfail 0%nat ltac:(lia)) as [->| ->];
    destruct (Hfail 1%nat ltac:(lia)) as [->| ->];
    destruct (Hfail 2%nat ltac:(lia)) as [->| ->]; reflexivity.
Qed.

Lemma get_extracted_data_exhausted_witness :
  get_extracted_data (fun n _ => if decide (n = 1%nat) then Fails HTTPError
                                 else Fails ConnectionError)
                     0 (py "Claim 42") [py "A"]
  = Call (Raise RetryError) 3 [4; 4].
Proof.
  apply get_extracted_data_exhausted. intros n Hn.
  destruct n as [|[|[|n]]]; [right | left | right | lia]; reflexivity.
Defined.

(** X8: an exception of the request that is neither [HTTPError] nor
    [ConnectionError] leaves the call as it is, at the run where it
    comes up, with no further run. *)
Theorem get_extracted_data_other_exception remote sent text fields e :
  remote sent (build_prompt text fields) = Fails e →
  e ≠ HTTPError → e ≠ ConnectionError →
  get_extracted_data remote sent text fields = Call (Raise e) 1 [].
Proof.
  intros Hr Hh Hc. unfold get_extracted_data, with_retry. cbn [retrying Nat.sub].
  rewrite Nat.add_0_r, Hr. cbn [extract_once].
  destruct (retry_if_exception_type _ e) eqn:Hre; [|done].
  apply retry_transport in Hre as [|]; done.
Qed.

Lemma get_extracted_data_other_exception_witness :
  get_extracted_data (fun _ _ => Fails OtherError) 0 (py "Claim 42") [py "A"]
  = Call (Raise OtherError) 1 [].
Proof. by apply get_extracted_data_other_exception. Defined.

(** ** More on the reading of a reply *)

Lemma upto_last_None c s : upto_last c s = None ↔ c ∉ s.
Proof.
  induction s as [|x r IH]; cbn [upto_last].
  - split; [intros _; apply not_elem_of_nil | done].
  - rewrite not_elem_of_cons. destruct (upto_last c r) as [t|].
    + split; [done|]. intros [_ Hr]. by apply IH in Hr.
    + destruct (N.eqb_spec x c) as [->|Hne].
      * split; [done | by intros [? _]].
      * split; [|done]. intros _. split; [congruence | by apply IH].
Qed.

Lemma last_split_unique c (m1 : pystr) : ∀ m2 p1 p2,
  c ∉ p1 → c ∉ p2 → m1 ++ c :: p1 = m2 ++ c :: p2 → m1 = m2 ∧ p1 = p2.
Proof.
  induction m1 as [|a m1 IH]; intros [|b m2] p1 p2 H1 H2 Heq; simpl in Heq.
  - by injection Heq as ->.
  - injection Heq as <- ->. exfalso. apply H1. set_solver.
  - injection Heq as -> <-. exfalso. apply H2. set_solver.
  - injection Heq as -> Heq. destruct (IH _ _ _ H1 H2 Heq) as [-> ->]. done.
Qed.

Lemma upto_last_Some_1 c s : ∀ t,
  upto_last c s = Some t → ∃ mid post, t = mid ++ [c] ∧ s = mid ++ c :: post ∧ c ∉ post.
Proof.
  induction s as [|x r IH]; intros t; cbn [upto_last]; [done|].
  destruct (upto_last c r) as [t'|] eqn:Hr.
  - destruct (IH t' eq_refl) as (mid' & post' & -> & -> & Hpost).
    intros [= <-]. by exists (x :: mid'), post'.
  - apply upto_last_None in Hr. destruct (N.eqb_spec x c) as [->|Hne]; [|done].
    intros [= <-]. by exists [], r.
Qed.

Lemma upto_last_Some_2 c (mid post : pystr) :
  c ∉ post → upto_last c (mid ++ c :: post) = Some (mid ++ [c]).
Proof.
  intros Hpost. destruct (upto_last c (mid ++ c :: post)) as [t|] eqn:Hu.
  - apply upto_last_Some_1 in Hu as (mid' & post' & -> & Heq & Hpost').
    by destruct (last_split_unique _ _ _ _ _ Hpost Hpost' Heq) as [-> _].
  - apply upto_last_None in Hu. exfalso. apply Hu. set_solver.
Qed.

Lemma search_json_block_found (pre mid post : pystr) :
  LBRACE ∉ pre → RBRACE ∉ post →
  search_json_block (pre ++ (LBRACE :: mid ++ [RBRACE]) ++ post)
  = Some (LBRACE :: mid ++ [RBRACE]).
Proof.
  intros Hpre Hpost. induction pre as [|c pre IH].
  - cbn [app search_json_block]. rewrite N.eqb_refl.
    rewrite <- app_assoc. cbn [app]. by rewrite upto_last_Some_2.
  - apply not_elem_of_cons in Hpre as [Hc Hpre]. cbn [app search_json_block].
    destruct (N.eqb_spec c LBRACE) as [->|]; [done | by apply IH].
Qed.

Lemma search_json_block_Some content : ∀ block,
  search_json_block content = Some block →
  ∃ pre mid post,
    content = pre ++ block ++ post ∧ block = LBRACE :: mid ++ [RBRACE]
    ∧ (LBRACE ∉ pre) ∧ (RBRACE ∉ post).
Proof.
  induction content as [|c r IH]; intros block; cbn [search_json_block]; [done|].
  assert (search_json_block r = Some block → c ≠ LBRACE →
          ∃ pre mid post,
            c :: r = pre ++ block ++ post ∧ block = LBRACE :: mid ++ [RBRACE]
            ∧ (LBRACE ∉ pre) ∧ (RBRACE ∉ post)) as Hrec.
  { intros (pre & mid & post & -> & -> & Hpre & Hpost)%IH Hc.
    exists (c :: pre), mid, post. repeat split; try done.
    apply not_elem_of_cons. split; [congruence | done]. }
  destruct (N.eqb_spec c LBRACE) as [->|Hne]; [|by auto].
  destruct (upto_last RBRACE r) as [t|] eqn:Hu.
  - intros [= <-]. apply upto_last_Some_1 in Hu as (mid & post & -> & -> & Hpost).
    exists [], mid, post. repeat split; try done.
    + cbn [app]. by rewrite <- app_assoc.
    + apply not_elem_of_nil.
  - intros (pre & mid & post & Heq & -> & _)%IH. exfalso.
    apply upto_last_None in Hu. apply Hu. rewrite Heq. set_solver.
Qed.

Lemma search_json_block_None content :
  search_json_block content = None →
  ∀ pre mid post, content ≠ pre ++ LBRACE :: mid ++ RBRACE :: post.
Proof.
  induction content as [|c r IH]; cbn [search_json_block]; intros Hs pre mid post Heq.
  - by destruct pre.
  - destruct (N.eqb_spec c LBRACE) as [->|Hne].
    + destruct (upto_last RBRACE r) as [t|] eqn:Hu; [done|].
      apply upto_last_None in Hu. apply Hu.
      destruct pre as [|x pre]; simpl in Heq; injection Heq as Heq; subst; set_solver.
    + destruct pre as [|x pre]; simpl in Heq; [congruence|].
      injection Heq as -> ->. by eapply IH.
Qed.

(** X9: the block taken from a reply runs from the first opening brace
    to the last closing brace: it is found exactly when the reply is
    some text without opening brace, then the block, then some text
    without closing brace; and none is found only when no opening brace
    of the reply has a closing brace after it. *)
Theorem search_json_block_spec (content : pystr) :
  (∀ block,
     search_json_block content = Some block
     ↔ ∃ pre mid post,
         content = pre ++ block ++ post ∧ block = LBRACE :: mid ++ [RBRACE]
         ∧ (LBRACE ∉ pre) ∧ (RBRACE ∉ post))
  ∧ (search_json_block content = None
     ↔ ∀ pre mid post, content ≠ pre ++ LBRACE :: mid ++ RBRACE :: post).
Proof.
  split.
  - intros block. split; [apply search_json_block_Some|].
    intros (pre & mid & post & -> & -> & Hpre & Hpost).
    by apply search_json_block_found.
  - split; [apply search_json_block_None|].
    intros Hno. destruct (search_json_block content) as [block|] eqn:Hs; [|done].
    apply search_json_block_Some in Hs as (pre & mid & post & -> & -> & _).
    exfalso. apply (Hno pre mid post). cbn [app]. by rewrite <- app_assoc.
Qed.

(** X10: what stands before the first opening brace and after the last
    closing brace of a reply plays no part: the reply is read as its
    block alone is. *)
Theorem parse_reply_block_only (pre mid post : pystr) :
  LBRACE ∉ pre → RBRACE ∉ post →
  parse_reply (pre ++ (LBRACE :: mid ++ [RBRACE]) ++ post)
  = parse_reply (LBRACE :: mid ++ [RBRACE]).
Proof.
  intros Hpre Hpost. unfold parse_reply.
  rewrite search_json_block_found by done.
  pose proof (search_json_block_found [] mid [] (not_elem_of_nil _) (not_elem_of_nil _)) as H.
  cbn [app] in H. rewrite app_nil_r in H. by rewrite H.
Qed.

Lemma parse_reply_block_only_witness :
  parse_reply (py "Sure! " ++ (LBRACE :: (q "A" ++ py ": 1") ++ [RBRACE]) ++ py " Done.")
  = parse_reply (LBRACE :: (q "A" ++ py ": 1") ++ [RBRACE]).
Proof.
  apply parse_reply_block_only; apply (bool_decide_unpack _); vm_compute; exact I.
Defined.


(** X12: a block that holds no two slashes in a row and no comma before
    a closing brace or bracket leaves the repair as it entered it. *)
Theorem sanitize_unchanged (json_str : pystr) :
  contains [SLASH; SLASH] json_str = false →
  has_trailing_comma json_str = false →
  sanitize json_str = json_str.
Proof. apply sanitize_none. Qed.

Lemma sanitize_unchanged_witness :
  sanitize (py "{" ++ q "A" ++ py ": [1, 2], " ++ q "B" ++ py ": " ++ q "a/b" ++ py "}")
  = py "{" ++ q "A" ++ py ": [1, 2], " ++ q "B" ++ py ": " ++ q "a/b" ++ py "}".
Proof. apply sanitize_unchanged; vm_compute; reflexivity. Defined.

Lemma strip_comments_head s :
  (∀ x t, strip_comments true s = x :: t → x = NL)
  ∧ (∀ t, strip_comments false s = SLASH :: t → ∃ r, s = SLASH :: r).
Proof.
  induction s as [|c r [IHt IHf]]; [done|]. split.
  - intros x t. cbn [strip_comments]. destruct (N.eqb_spec c NL) as [->|].
    + by intros [= <- _].
    + apply IHt.
  - intros t. cbn [strip_comments]. destruct r as [|d r'].
    + intros [= -> _]. by eexists.
    + destruct ((c =? SLASH) && (d =? SLASH)).
      * intros H%IHt. done.
      * intros [= -> _]. by eexists.
Qed.

Lemma strip_comments_clean s :
  contains [SLASH; SLASH] (strip_comments true s) = false
  ∧ contains [SLASH; SLASH] (strip_comments false s) = false.
Proof.
  induction s as [|c r [IHt IHf]]; [done|]. split.
  - cbn [strip_comments]. destruct (N.eqb_spec c NL) as [->|]; [|exact IHt].
    cbn [contains is_prefix]. rewrite IHf. change (SLASH =? NL) with false. done.
  - cbn [strip_comments]. destruct r as [|d r'].
    { cbn [contains is_prefix]. by rewrite andb_false_r. }
    destruct (N.eqb_spec c SLASH) as [->|Hc]; cbn [andb].
    + destruct (N.eqb_spec d SLASH) as [->|Hd]; [done|].
      cbn [contains is_prefix]. rewrite IHf, orb_false_r, N.eqb_refl. cbn [andb].
      destruct (strip_comments false (d :: r')) as [|x t] eqn:Hs; [done|].
      rewrite andb_true_r. destruct (N.eqb_spec SLASH x) as [<-|]; [|done].
      destruct (strip_comments_head (d :: r')) as [_ Hf].
      destruct (Hf t Hs) as [r0 [= ->]]. done.
    + cbn [contains is_prefix]. rewrite IHf, orb_false_r.
      destruct (N.eqb_spec SLASH c); [congruence | done].
Qed.

(** X13: after the removal of the comments no two slashes stand in a
    row, so a second removal changes nothing. *)
Theorem strip_comments_once (s : pystr) :
  contains [SLASH; SLASH] (strip_comments false s) = false
  ∧ strip_comments false (strip_comments false s) = strip_comments false s.
Proof.
  destruct (strip_comments_clean s) as [_ Hclean].
  split; [done | by apply strip_comments_none].
Qed.

Lemma strip_comments_sublist s : ∀ b, sublist (strip_comments b s) s.
Proof.
  induction s as [|c r IH]; intros b; [constructor|].
  cbn [strip_comments]. destruct b.
  - destruct (c =? NL); [apply sublist_skip | apply sublist_cons]; apply IH.
  - destruct r as [|d r']; [done|].
    destruct (_ && _); [apply sublist_cons | apply sublist_skip]; apply IH.
Qed.

Lemma strip_trailing_commas_sublist s : ∀ b, sublist (strip_trailing_commas b s) s.
Proof.
  induction s as [|c r IH]; intros b; [constructor|].
  cbn [strip_trailing_commas]. destruct b.
  - destruct (is_space c); [apply sublist_cons | apply sublist_skip]; apply IH.
  - destruct (_ && _); [apply sublist_cons | apply sublist_skip]; apply IH.
Qed.

(** X14: the repair only takes characters away: what it returns is the
    block with some characters left out, the others in their order. *)
Theorem sanitize_sublist (json_str : pystr) : sublist (sanitize json_str) json_str.
Proof.
  unfold sanitize. etrans; [apply strip_trailing_commas_sublist | apply strip_comments_sublist].
Qed.

Lemma dict_set_wf {V} k (v : V) d : dict_wf d → dict_wf (dict_set k v d).
Proof.
  unfold dict_wf. intros Hwf. rewrite keys_dict_set. case_decide as Hin; [done|].
  apply NoDup_app. repeat split; [done| |apply NoDup_singleton].
  intros x Hx ->%list_elem_of_singleton. done.
Qed.

Lemma dict_of_pairs_wf pairs : dict_wf (dict_of_pairs pairs).
Proof.
  unfold dict_of_pairs.
  assert (∀ d, dict_wf d → dict_wf (foldl (fun d kv => dict_set kv.1 kv.2 d) d pairs)) as H.
  { induction pairs as [|kv pairs IH]; intros d Hd; [done|]. cbn [foldl].
    by apply IH, dict_set_wf. }
  apply H, NoDup_nil_2.
Qed.

Lemma json_loads_object_wf r v :
  json_loads (LBRACE :: r) = Some v → ∃ data, v = JObj data ∧ dict_wf data.
Proof.
  unfold json_loads, decode.
  change (skip_ws (LBRACE :: r)) with (LBRACE :: r).
  change (match LBRACE :: r with 65279 :: _ => None | _ => ?x end) with x.
  cbn [parse_value]. unfold value_at.
  change (LBRACE =? QUOTE) with false. change (LBRACE =? LBRACE) with true. cbv iota.
  intros ([v' rest] & Hv & Hrest)%bind_Some.
  assert (∃ data, v' = JObj data ∧ dict_wf data) as (data & -> & Hwf).
  { destruct (skip_ws r) as [|d r1]; [done|].
    destruct (d =? RBRACE).
    - injection Hv as <- _. exists []. split; [done | apply NoDup_nil_2].
    - apply bind_Some in Hv as ([pairs rest'] & _ & [= <- _]).
      eexists. split; [done | apply dict_of_pairs_wf]. }
  destruct (skip_ws rest); [|done]. injection Hrest as <-. by exists data.
Qed.

(** X15: the map read from a reply is a dictionary: its keys are
    distinct, also when the model wrote a key twice. *)
Theorem parse_reply_wf (content : pystr) (d : list (pystr * json)) :
  parse_reply content = Return d → dict_wf d.
Proof.
  intros (json_str & data & Hs & Hd & ->)%parse_reply_returns.
  apply search_json_block_head in Hs as [r ->].
  destruct (sanitize_head r) as [r' Hr]. rewrite Hr in Hd.
  apply json_loads_object_wf in Hd as (data' & [= ->] & Hwf).
  unfold dict_wf. by rewrite null_to_empty_keys.
Qed.

Lemma parse_reply_wf_witness :
  dict_wf [(py "A", JInt 2); (py "B", JStr [])].
Proof.
  apply (parse_reply_wf (py "{" ++ q "A" ++ py ": 1, " ++ q "B" ++ py ": null, "
                         ++ q "A" ++ py ": 2}")).
  vm_compute. reflexivity.
Defined.

(** ** The scanner and the filler together *)

Lemma contains_spec p : ∀ s, contains p s = true ↔ occurs_in p s.
Proof.
  unfold occurs_in. induction s as [|c r IH]; cbn [contains].
  - rewrite orb_false_r, is_prefix_spec. split.
    + intros [post ->]. by exists [], post.
    + intros (pre & post & Heq). destruct pre; [by exists post|done].
  - rewrite orb_true_iff, is_prefix_spec, IH. split.
    + intros [[post ->]|(pre & post & ->)]; [by exists [], post | by exists (c :: pre), post].
    + intros ([|x pre] & post & Heq).
      * left. by exists post.
      * right. injection Heq as -> ->. by exists pre, post.
Qed.

(** X16: the test [placeholder in text] of the filler changes nothing:
    each step of the loop is the plain [replace], which returns a text
    that does not hold the placeholder as it is. *)
Theorem fill_step_unguarded {V} (py_str : V → pystr) (text key : pystr) (value : V) :
  fill_step py_str text (key, value)
  = str_replace (placeholder key) (py_str value) text.
Proof. apply fill_step_replace. Qed.

(** X17: for a field name, the scanner and the filler agree on where it
    stands: the scanner reports the name in a text exactly when the
    test of the filler finds its placeholder there. *)
Theorem scanner_filler_agree (k text : pystr) :
  is_field_name k →
  (k ∈ findall_fields text ↔ contains (placeholder k) text = true).
Proof.
  intros Hk. rewrite elem_of_findall_fields, contains_spec. naive_solver.
Qed.

Lemma scanner_filler_agree_witness :
  py "NAME" ∈ findall_fields (py "Dear [NAME],")
  ↔ contains (placeholder (py "NAME")) (py "Dear [NAME],") = true.
Proof.
  apply scanner_filler_agree. split; [done|].
  repeat constructor.
Defined.

Lemma skip_name (k : pystr) : ∀ (pre rest x : pystr),
  LBRACKET ∉ k →
  k ++ RBRACKET :: rest = pre ++ LBRACKET :: x →
  ∃ pre', rest = pre' ++ LBRACKET :: x.
Proof.
  induction k as [|a k IH]; intros pre rest x Hk Heq; simpl in Heq.
  - destruct pre as [|b pre]; simpl in Heq; [done|].
    injection Heq as _ ->. by exists pre.
  - apply not_elem_of_cons in Hk as [Ha Hk].
    destruct pre as [|b pre]; simpl in Heq; injection Heq as -> Heq; [done|].
    by eapply IH.
Qed.

Lemma occurs_in_render ps k :
  Forall piece_ok ps → bracket_free k →
  (occurs_in (placeholder k) (render ps) ↔ Hole k ∈ ps).
Proof.
  intros Hps Hk. unfold occurs_in. split.
  - intros (pre & post & Heq). revert pre Heq.
    induction Hps as [|p ps Hp _ IH]; intros pre Heq.
    { destruct pre; done. }
    change (render (p :: ps)) with (render_piece p ++ render ps) in Heq.
    destruct p as [c|k']; cbn [render_piece piece_ok] in *.
    + destruct pre as [|x pre]; simpl in Heq; injection Heq as -> Heq; [done|].
      apply list_elem_of_further. by eapply IH.
    + unfold placeholder in Heq. simpl in Heq. rewrite <- !app_assoc in Heq. simpl in Heq.
      destruct pre as [|x pre]; simpl in Heq.
      * injection Heq as Heq.
        apply name_until_bracket in Heq as ->; [apply list_elem_of_here | apply Hp | apply Hk].
      * injection Heq as Hx Heq. subst x.
        apply skip_name in Heq as [pre' Heq]; [|apply Hp].
        apply list_elem_of_further. apply (IH pre').
        unfold placeholder. simpl. by rewrite <- app_assoc.
  - intros (ps1 & ps2 & ->)%list_elem_of_split.
    exists (render ps1), (render ps2). rewrite render_app.
    change (render (Hole k :: ps2)) with (placeholder k ++ render ps2). done.
Qed.

Lemma hole_in_subst {V} (py_str : V → pystr) kv ps k :
  Hole k ∈ subst py_str kv ps ↔ Hole k ∈ ps ∧ k ∉ keys kv.
Proof.
  unfold subst. rewrite list_elem_of_bind, <- dict_get_None. split.
  - intros ([c|k'] & Hin & Hp); cbn [subst_piece] in Hin.
    + apply list_elem_of_singleton in Hin. done.
    + destruct (dict_get k' kv) as [v|] eqn:Hget.
      * apply list_elem_of_fmap in Hin as (? & ? & _). done.
      * apply list_elem_of_singleton in Hin as [= ->]. done.
  - intros [Hin Hget]. exists (Hole k). split; [|done].
    cbn [subst_piece]. rewrite Hget. apply list_elem_of_here.
Qed.

Lemma field_name_bracket_free k : is_field_name k → bracket_free k.
Proof.
  intros [_ Hk]. rewrite Forall_forall in Hk.
  split; intros Hin; apply Hk, field_char_not_bracket in Hin as [? ?]; done.
Qed.

(** X18: after the filling of a text whose opening brackets all open a
    placeholder, with keys that hold no bracket and values whose text
    holds no opening bracket, the scanner finds in it the field names
    of the placeholders whose name is no key of the map, and no other. *)
Theorem fields_left_after_fill {V} (py_str : V → pystr)
    (kv : list (pystr * V)) (ps : list piece) (k : pystr) :
  keys_ok kv → values_ok py_str kv → Forall piece_ok ps →
  (k ∈ findall_fields (fill_text py_str kv (render ps))
   ↔ is_field_name k ∧ Hole k ∈ ps ∧ k ∉ keys kv).
Proof.
  intros Hkeys Hvals Hps. rewrite fill_text_pieces by done.
  rewrite elem_of_findall_fields. split.
  - intros [Hk Hocc]. split; [done|].
    apply occurs_in_render in Hocc;
      [|by apply subst_pieces_ok | by apply field_name_bracket_free].
    by apply hole_in_subst in Hocc.
  - intros (Hk & Hin & Hkey). split; [done|].
    apply occurs_in_render;
      [by apply subst_pieces_ok | by apply field_name_bracket_free|].
    by apply hole_in_subst.
Qed.

Lemma fields_left_after_fill_witness :
  let kv := [(py "NAME", py "Acme")] in
  let ps := [Hole (py "NAME"); Lit 32; Hole (py "DATE")] in
  py "DATE" ∈ findall_fields (fill_text id kv (render ps))
  ↔ is_field_name (py "DATE") ∧ Hole (py "DATE") ∈ ps ∧ py "DATE" ∉ keys kv.
Proof.
  intros kv ps. apply fields_left_after_fill.
  - unfold keys_ok. pieces_ok.
  - apply Forall_singleton. apply (bool_decide_unpack _). vm_compute. exact I.
  - pieces_ok.
Defined.

Lemma dict_get_perm {V} (kv kv' : list (pystr * V)) k :
  kv ≡ₚ kv' → dict_wf kv → dict_get k kv = dict_get k kv'.
Proof.
  intros Hperm Hwf.
  assert (dict_wf kv') as Hwf' by (unfold dict_wf, keys in *; by rewrite <- Hperm).
  destruct (dict_get k kv) as [v|] eqn:Hget.
  - apply dict_get_Some_elem in Hget. rewrite Hperm in Hget.
    symmetry. by apply dict_get_elem.
  - symmetry. apply dict_get_None. apply dict_get_None in Hget.
    unfold keys in *. by rewrite <- Hperm.
Qed.

(** X19: on such a text and with such a map, the order in which the
    map holds its keys plays no part in the filled text. *)
Theorem fill_text_any_order {V} (py_str : V → pystr)
    (kv kv' : list (pystr * V)) (ps : list piece) :
  kv ≡ₚ kv' → dict_wf kv →
  keys_ok kv → values_ok py_str kv → Forall piece_ok ps →
  fill_text py_str kv (render ps) = fill_text py_str kv' (render ps).
Proof.
  intros Hperm Hwf Hkeys Hvals Hps.
  rewrite !fill_text_pieces; try done.
  - f_equal. unfold subst. apply list_bind_ext; [|done]. intros [c|k]; [done|].
    cbn [subst_piece]. by rewrite (dict_get_perm kv kv').
  - unfold keys_ok, keys in *. by rewrite <- Hperm.
  - unfold values_ok in *. by rewrite <- Hperm.
Qed.

Lemma fill_text_any_order_witness :
  let ps := [Hole (py "A"); Lit 45; Hole (py "B")] in
  fill_text id [(py "A", py "1"); (py "B", py "2")] (render ps)
  = fill_text id [(py "B", py "2"); (py "A", py "1")] (render ps).
Proof.
  intros ps. apply fill_text_any_order.
  - apply perm_swap.
  - apply (bool_decide_unpack _). vm_compute. exact I.
  - unfold keys_ok. pieces_ok.
  - repeat (apply Forall_cons_2; [apply (bool_decide_unpack _); vm_compute; exact I|]).
    apply Forall_nil_2.
  - pieces_ok.
Defined.

(** ** More on the scanner *)

Lemma elem_of_extract_template_fields doc k :
  k ∈ extract_template_fields doc
  ↔ ∃ text, text ∈ doc_texts doc ∧ k ∈ findall_fields text.
Proof.
  unfold extract_template_fields, sorted, doc_texts.
  rewrite merge_sort_Permutation, elem_of_elements, elem_of_scan_tables, elem_of_scan_texts.
  setoid_rewrite elem_of_app. split.
  - intros [[?%elem_of_empty|(t & ? & ?)]|(t & ? & ?)]; [done| |]; eauto.
  - intros (t & [?|?] & ?); [left; right | right]; eauto.
Qed.

(** X20: the scanner returns the empty list, on which [main] stops with
    its message, exactly when no paragraph and no cell holds a field
    name between brackets. *)
Theorem extract_template_fields_empty (doc : document) :
  extract_template_fields doc = []
  ↔ ∀ text k, text ∈ doc_texts doc → is_field_name k → ¬ occurs_in (placeholder k) text.
Proof.
  split.
  - intros Hnil text k Hin Hk Hocc.
    assert (k ∈ extract_template_fields doc) as Hmem.
    { apply elem_of_extract_template_fields. exists text. split; [done|].
      by apply elem_of_findall_fields. }
    rewrite Hnil in Hmem. by apply elem_of_nil in Hmem.
  - intros Hno. destruct (extract_template_fields doc) as [|k l] eqn:He; [done|].
    assert (k ∈ extract_template_fields doc) as Hmem by (rewrite He; apply list_elem_of_here).
    apply elem_of_extract_template_fields in Hmem as (text & Hin & Hk).
    apply elem_of_findall_fields in Hk as [Hk Hocc]. by destruct (Hno text k).
Qed.

Lemma scan_tables_as_texts (tbls : list (list (list pystr))) (fields : gset pystr) :
  foldl (fun fields table => foldl (fun fields row => scan_texts fields row) fields table)
        fields tbls
  = scan_texts fields (mjoin (mjoin tbls)).
Proof.
  apply set_eq. intros k.
  rewrite elem_of_scan_tables, elem_of_scan_texts. done.
Qed.

(** X21: the list of fields depends on the texts of the template only
    as a set: two templates with the same texts, wherever they stand
    (paragraph or cell) and however often, have the same list. *)
Theorem extract_template_fields_same_texts (doc doc' : document) :
  (∀ text, text ∈ doc_texts doc ↔ text ∈ doc_texts doc') →
  extract_template_fields doc = extract_template_fields doc'.
Proof.
  intros Hsame. unfold extract_template_fields. rewrite !scan_tables_as_texts.
  f_equal. f_equal. apply set_eq. intros k.
  rewrite !elem_of_scan_texts. unfold doc_texts in Hsame.
  setoid_rewrite elem_of_app in Hsame. split.
  - intros [[?%elem_of_empty|(t & Ht & ?)]|(t & Ht & ?)]; [done| |];
      (destruct (proj1 (Hsame t)) as [?|?]; [by auto| |]); eauto 6.
  - intros [[?%elem_of_empty|(t & Ht & ?)]|(t & Ht & ?)]; [done| |];
      (destruct (proj2 (Hsame t)) as [?|?]; [by auto| |]); eauto 6.
Qed.

Lemma extract_template_fields_same_texts_witness :
  extract_template_fields {| paragraphs := [py "[A] and [B]"; py "[A] and [B]"]; tables := [] |}
  = extract_template_fields {| paragraphs := []; tables := [[[py "[A] and [B]"]]] |}.
Proof.
  apply extract_template_fields_same_texts. intros text. unfold doc_texts. cbn.
  rewrite !elem_of_cons. split; intros H; tauto.
Defined.

(** ** A whole run *)

Lemma process_reports_no_text remote fields pdf_files : ∀ sent acc,
  Forall (fun pdf => has_text pdf = false) pdf_files →
  process_reports remote fields pdf_files sent acc = Return acc.
Proof.
  induction pdf_files as [|pdf rest IH]; intros sent acc Hall; [done|].
  apply Forall_cons in Hall as [Hpdf Hrest].
  rewrite process_reports_skip_here by done. by apply IH.
Qed.

Lemma combine_kv_no_null (kvs : list (list (pystr * json))) :
  Forall (Forall (fun item => item.2 ≠ JNull)) kvs →
  Forall (fun item => item.2 ≠ JNull) (combine_kv kvs).
Proof.
  intros Hall. apply Forall_forall. intros [k v] Hin.
  assert (dict_get k (combine_kv kvs) = Some v) as Hget
    by (apply dict_get_elem; [apply combine_kv_wf | done]).
  rewrite combine_kv_get in Hget.
  apply first_nonempty_wins_elem, list_elem_of_join in Hget as (kv & Hitem & Hkv).
  rewrite Forall_forall in Hall. specialize (Hall kv Hkv).
  rewrite Forall_forall in Hall. by apply (Hall (k, v)).
Qed.

(** X22: with a template that has fields and reports that all yield no
    text, the run ends with the message that no data was extracted,
    whatever the endpoint would answer: no request goes out. *)
Theorem main_no_text (py_str : json → pystr) (remote : nat → pystr → transport)
    (template : document) (pdf_files : list (list (option pystr))) :
  extract_template_fields template ≠ [] → pdf_files ≠ [] →
  Forall (fun pdf => has_text pdf = false) pdf_files →
  main py_str remote (Some template) pdf_files = NoData.
Proof.
  intros Hf Hp Hall. unfold main.
  destruct pdf_files as [|pdf rest]; [done|].
  destruct (extract_template_fields template) as [|f fs]; [done|].
  by rewrite process_reports_no_text.
Qed.

Lemma main_no_text_witness :
  main str_of_str acme_remote (Some sample_template) [[None]; []] = NoData.
Proof.
  apply main_no_text.
  - vm_compute. discriminate.
  - discriminate.
  - repeat constructor.
Defined.

(** X23: a run that saves a document had a template with fields and a
    map from every report with text; the saved document is the template
    filled with the merge of these maps, it has the shape of the
    template, and the merged map is a dictionary without null value. *)
Theorem main_filled (py_str : json → pystr) (remote : nat → pystr → transport)
    (template_file : option document) (pdf_files : list (list (option pystr)))
    (combined_kv : list (pystr * json)) (filled_doc : document) :
  main py_str remote template_file pdf_files = Filled combined_kv filled_doc →
  ∃ template kvs,
    template_file = Some template
    ∧ extract_template_fields template ≠ []
    ∧ process_reports remote (extract_template_fields template) pdf_files 0 [] = Return kvs
    ∧ length kvs = length (filter (fun pdf => has_text pdf = true) pdf_files)
    ∧ kvs ≠ []
    ∧ combined_kv = combine_kv kvs
    ∧ filled_doc = fill_template py_str template combined_kv
    ∧ shape filled_doc = shape template
    ∧ dict_wf combined_kv
    ∧ Forall (fun item => item.2 ≠ JNull) combined_kv.
Proof.
  unfold main. destruct template_file as [template|]; [|done].
  destruct pdf_files as [|pdf rest]; [done|].
  destruct (extract_template_fields template) as [|f fs] eqn:Hf; [done|].
  destruct (process_reports _ _ _ _ _) as [[|kv kvs]|e] eqn:Hrun; try done.
  intros [= <- <-]. exists template, (kv :: kvs). rewrite Hf.
  split; [done|]. split; [done|]. split; [done|].
  split; [by eapply (process_reports_length _ _ _ 0%nat [])|].
  split; [done|]. split; [done|]. split; [done|].
  split; [apply fill_template_shape|]. split; [apply combine_kv_wf|].
  apply combine_kv_no_null.
  apply process_reports_returns in Hrun as (new & Hnew & Hall). simpl in Hnew. subst new.
  eapply Forall_impl; [exact Hall|]. intros d [content Hc].
  apply parse_reply_returns in Hc as (_ & data & _ & _ & ->).
  apply null_to_empty_no_null.
Qed.

Lemma main_filled_witness :
  ∃ template kvs,
    Some sample_template = Some template
    ∧ extract_template_fields template ≠ []
    ∧ process_reports acme_remote (extract_template_fields template)
        [[Some (py "Claim 42")]] 0 [] = Return kvs
    ∧ length kvs = length (filter (fun pdf => has_text pdf = true) [[Some (py "Claim 42")]])
    ∧ kvs ≠ []
    ∧ [(py "A", JStr (py "Acme"))] = combine_kv kvs
    ∧ {| paragraphs := [py "Insured: Acme"]; tables := [] |}
      = fill_template str_of_str template [(py "A", JStr (py "Acme"))]
    ∧ shape {| paragraphs := [py "Insured: Acme"]; tables := [] |} = shape template
    ∧ dict_wf [(py "A", JStr (py "Acme"))]
    ∧ Forall (fun item => item.2 ≠ JNull) [(py "A", JStr (py "Acme"))].
Proof.
  apply (main_filled str_of_str acme_remote (Some sample_template) [[Some (py "Claim 42")]]).
  vm_compute. reflexivity.
Defined.

(** ** A document filled twice *)

Lemma fill_text_twice {V} (py_str : V → pystr) kv text :
  keys_ok kv → values_ok py_str kv → text_ok text →
  fill_text py_str kv (fill_text py_str kv text) = fill_text py_str kv text.
Proof. intros Hk Hv (ps & -> & Hps). by apply fill_text_again. Qed.

(** X24: when no key holds a bracket, the text of no value holds an
    opening bracket and every opening bracket of the template opens a
    placeholder, filling the filled document again with the same map
    changes nothing. *)
Theorem fill_template_twice {V} (py_str : V → pystr)
    (doc : document) (kv : list (pystr * V)) :
  keys_ok kv → values_ok py_str kv → Forall text_ok (doc_texts doc) →
  fill_template py_str (fill_template py_str doc kv) kv = fill_template py_str doc kv.
Proof.
  intros Hk Hv Hall. unfold doc_texts in Hall. apply Forall_app in Hall as [Hpars Htabs].
  unfold fill_template. cbn [paragraphs tables]. f_equal.
  - rewrite <- list_fmap_compose. apply Forall_fmap_ext.
    eapply Forall_impl; [exact Hpars|]. intros text Ht. by apply fill_text_twice.
  - rewrite <- list_fmap_compose. apply Forall_fmap_ext, Forall_forall.
    intros table Htable. cbn.
    rewrite <- list_fmap_compose. apply Forall_fmap_ext, Forall_forall.
    intros row Hrow. cbn.
    rewrite <- list_fmap_compose. apply Forall_fmap_ext, Forall_forall.
    intros text Htext. cbn. apply fill_text_twice; [done|done|].
    rewrite Forall_forall in Htabs. apply Htabs.
    apply list_elem_of_join. exists row. split; [done|].
    apply list_elem_of_join. by exists table.
Qed.

Lemma fill_template_twice_witness :
  let kv := [(py "NAME", py "Acme")] in
  let doc := {| paragraphs := [render [Hole (py "NAME"); Lit 33]];
                tables := [[[render [Hole (py "DATE")]]]] |} in
  fill_template id (fill_template id doc kv) kv = fill_template id doc kv.
Proof.
  intros kv doc. apply fill_template_twice.
  - unfold keys_ok. pieces_ok.
  - apply Forall_singleton. apply (bool_decide_unpack _). vm_compute. exact I.
  - change (Forall text_ok [render [Hole (py "NAME"); Lit 33]; render [Hole (py "DATE")]]).
    apply Forall_cons_2; [exists [Hole (py "NAME"); Lit 33]; split; [reflexivity | pieces_ok]|].
    apply Forall_cons_2; [exists [Hole (py "DATE")]; split; [reflexivity | pieces_ok]|].
    apply Forall_nil_2.
Defined.
